(** * Handel aggregation core: levels, dissemination and final output

    A shallow embedding of package [handel]: the per-level cursor
    [Level], the aggregator [Handel] and the functions that run under
    its lock.  Go's machine integers are integers of [Z] with
    their wrap-around written out, slices are lists, a pointer receiver
    is a value passed in and returned, and [panic] is the [Panic]
    outcome of the [result] type. *)

From Stdlib Require Import ZArith Lia Bool Sorted.
From stdpp Require Import base list.
From Equations Require Import Equations.

Open Scope Z_scope.

(** ** Machine integers and slices *)

Module GoInt.

(** Go's [int] on the 64-bit targets the simulation runs on. *)
Definition maxInt : Z := 2 ^ 63 - 1.
Definition minInt : Z := - 2 ^ 63.

(** Two's complement reduction of an integer to a signed width. *)
Definition signed (bits : Z) (z : Z) : Z :=
  (z + 2 ^ (bits - 1)) mod 2 ^ bits - 2 ^ (bits - 1).

Definition int (z : Z) : Z := signed 64 z.
Definition int32 (z : Z) : Z := signed 32 z.

(** [byte] is [uint8]. *)
Definition byte (z : Z) : Z := z mod 256.

End GoInt.
Import GoInt.

(** [len s] of a slice. *)
Definition len {A : Type} (s : list A) : Z := Z.of_nat (length s).

(** [s[i]]: [None] stands for the run-time "index out of range". *)
Definition index {A : Type} (s : list A) (i : Z) : option A :=
  if i <? 0 then None else s !! Z.to_nat i.

(** ** Outcomes: normal return or panic *)

(** The [error] values built in this file. *)
Inductive error : Type :=
| ErrOriginOutOfRange            (* "packet's origin out of range" *)
| ErrLevelOutOfRange (lvl max n : Z)
                                 (* "packet's level out of range, ..." *)
| ErrNoNonEmptyLevel             (* "no non-empty level found" *)
| ErrExternal.                   (* an error reported by a collaborator *)

(** What a panic carries: the argument of an explicit [panic(...)], or
    the run-time error Go raises by itself. *)
Inductive panic : Type :=
| PanicBadLevelId                (* "bad value for level id" *)
| PanicTooManySignatures (lvl nodes sigs : Z)
                                 (* "Too many signatures for this level: ..." *)
| PanicShouldNotHappen           (* "THIS SHOULD NOT HAPPEN AT ALL" *)
| PanicStoreWrong                (* "something's wrong with the store" *)
| PanicSkipSendingBest (lvl n : Z)
                                 (* "skip sending best -> reached maximum level" *)
| PanicError (e : error)         (* panic(err) *)
| RuntimeIndexOutOfRange         (* s[i] with i outside [0, len s) *)
| RuntimeMakeSliceLen            (* make([]T, n) with n < 0 *)
| RuntimeNilDereference          (* method call through a nil pointer *)
| RuntimeSendOnClosedChannel     (* c <- v on a closed channel *)
| RuntimeCloseOfClosedChannel.   (* close(c) on a closed channel *)

Inductive result (A : Type) : Type :=
| Ok (a : A)
| Panic (p : panic).
Arguments Ok {A} a.
Arguments Panic {A} p.

(** [result] is a monad; the instances give stdpp's [x ← r; k]. *)
#[global] Instance result_ret : MRet result := fun A a => Ok a.
#[global] Instance result_bind : MBind result := fun A B k r =>
  match r with
  | Ok a => k a
  | Panic p => Panic p
  end.

(** ** Multi-signatures *)

(** Modelled from the spec: the [BitSet] interface is declared outside
    this file.  "An ordered, fixed-capacity set of indices in
    [0, capacity)": one boolean per index; [Cardinality] counts the set
    bits and [BitLength] is the capacity. *)
Definition BitSet : Type := list bool.

Fixpoint popcount (bs : BitSet) : nat :=
  match bs with
  | [] => O
  | b :: rest => ((if b then 1 else 0) + popcount rest)%nat
  end.

(** Modelled from the spec: [MultiSignature] is declared outside this
    file.  "A pair (bits: BitSet, sig: Signature)"; the aggregated
    signature is kept as its scheme-specific bytes. *)
Record MultiSignature : Type := mkMultiSignature {
  bits : BitSet;
  sig_bytes : list Byte.byte
}.

(** [ms.Cardinality()], the method promoted from the embedded BitSet. *)
Definition Cardinality (m : MultiSignature) : Z := Z.of_nat (popcount (bits m)).
Definition BitLength (m : MultiSignature) : Z := len (bits m).

(** ** The collaborators the aggregator consumes *)

(** Interfaces and helpers of the package that this file calls and does
    not define: the identities, the size helper [log2], and the
    serialisation of multi-signatures. *)
Class Collaborators : Type := {
  Identity : Type;
  (** [Identity.ID()], an [int32] *)
  ID : Identity -> Z;
  (** [log2(n)], the number of levels for [n] participants *)
  log2 : Z -> Z;
  (** [new(MultiSignature).Unmarshal(buff, ...)]: the value read and the error *)
  Unmarshal : list Byte.byte -> MultiSignature * option error;
  (** [ms.MarshalBinary()] *)
  MarshalBinary : MultiSignature -> list Byte.byte * option error
}.

(** The read side of the [signatureStore] interface at one moment.
    [Best] returns a pointer and an [ok] flag; [Combined] and
    [FullSignature] return a pointer, [None] being [nil]. *)
Record signatureStore : Type := mkStore {
  Best : Z -> option MultiSignature * bool;
  Combined : Z -> option MultiSignature;
  FullSignature : option MultiSignature
}.

Section Definitions.
Context `{Collaborators}.

(** ** Levels *)

Record Level : Type := mkLevel {
  id : Z;
  nodes : list Identity;
  started : bool;
  completed : bool;
  finished : bool;
  pos : Z;
  sent : Z;
  currentBestSize : Z
}.

Definition NewLevel (i : Z) (ns : list Identity) : result Level :=
  if i <=? 0 then Panic PanicBadLevelId
  else Ok {| id := i; nodes := ns; started := true;
             completed := false; (* For the first level, we need only our own sig *)
             finished := false; pos := 0; sent := 0; currentBestSize := 0 |}.

(** The body of [for i := 0; i < len(lvls); i++] in [createLevels], for
    the [n] indices from [i] on.  [pick] is [partitioner.PickNextAt]. *)
Fixpoint createLevels_loop (pick : Z -> Z -> list Identity * bool)
    (size : Z) (n : nat) (i : Z) : result (list Level) :=
  match n with
  | O => Ok []
  | S n' =>
      let '(ns, _) := pick (int (i + 1)) (int (size + 1)) in
      l ← NewLevel (int (i + 1)) ns;
      rest ← createLevels_loop pick size n' (int (i + 1));
      Ok (l :: rest)
  end.

Definition createLevels (size : Z) (pick : Z -> Z -> list Identity * bool)
    : result (list Level) :=
  let n := log2 size in
  if n <? 0 then Panic RuntimeMakeSliceLen
  else createLevels_loop pick size (Z.to_nat n) 0.

(** The loop of [PickNextAt], with [n] iterations left: read the peer
    under the cursor, step the cursor, wrap it at the end of [ns].  The
    loop fills [res[0]], [res[1]], ... in this order, so [res] here is
    the part of the slice filled so far. *)
Fixpoint PickNextAt_loop (ns : list Identity) (n : nat) (p : Z)
    (res : list Identity) : result (Z * list Identity) :=
  match n with
  | O => Ok (p, res)
  | S n' =>
      match index ns p with
      | None => Panic RuntimeIndexOutOfRange
      | Some x =>
          let p1 := int (p + 1) in
          let p2 := if p1 >=? len ns then 0 else p1 in
          PickNextAt_loop ns n' p2 (res ++ [x])
      end
  end.

(** [func (c *Level) PickNextAt(count int) ([]Identity, bool)]: the
    level after the call comes first.  [min] is the smaller of two
    [int]s; [make] panics on a negative length. *)
Definition PickNextAt (c : Level) (count : Z)
    : result (Level * (list Identity * bool)) :=
  let size := Z.min count (len (nodes c)) in
  if size <? 0 then Panic RuntimeMakeSliceLen
  else
    '(p, res) ← PickNextAt_loop (nodes c) (Z.to_nat size) (pos c) [];
    let sent' := int (sent c + size) in
    let finished' := if sent' >=? len (nodes c) then true else finished c in
    Ok ({| id := id c; nodes := nodes c; started := started c;
           completed := completed c; finished := finished';
           pos := p; sent := sent'; currentBestSize := currentBestSize c |},
        (res, true)).

(** [func (l *Level) updateBestSig(sig *MultiSignature) bool]. *)
Definition updateBestSig (l : Level) (sig : option MultiSignature)
    : result (Level * bool) :=
  match sig with
  | None => Panic RuntimeNilDereference
  | Some m =>
      if Cardinality m >? len (nodes l)
      then Panic (PanicTooManySignatures (id l) (len (nodes l)) (Cardinality m))
      else if currentBestSize l >=? Cardinality m then Ok (l, false)
      else
        let l' := {| id := id l; nodes := nodes l; started := started l;
                     completed := completed l; finished := false;
                     pos := pos l; sent := 0;
                     currentBestSize := Cardinality m |} in
        Ok (l', currentBestSize l' =? len (nodes l'))
  end.

(** ** Packets, verified pairs and the aggregator *)

(** [Packet]: [Origin] is an [int32], [Level] a [byte]. *)
Record Packet : Type := mkPacket {
  Origin : Z;
  PacketLevel : Z;
  MultiSig : list Byte.byte
}.

(** [sigPair]; [ms] is a pointer. *)
Record sigPair : Type := mkSigPair {
  origin : Z;
  level : Z;
  ms : option MultiSignature
}.

(** The lines [logf] writes, by call site. *)
Inductive logEntry : Type :=
| LogSending (lvl size : Z) (to : list Identity)
| LogMarshalError (e : error)
| LogInvalidPacket (e : error)
| LogReceivedPacket (from lvl : Z)
| LogProtocolFinished (lvl : Z)
| LogPassing (from to : Z)
| LogVerified (v : sigPair).

(** The fields of [Handel] that the functions below read or write, and
    the effects they have on the collaborators: [sends] lists the calls
    of [net.Send], [incoming] the pairs pushed on [proc.Incoming()],
    [out] the values sent on the channel [h.out], each oldest first. *)
Record Handel : Type := mkHandel {
  CandidateCount : Z;              (* h.c.CandidateCount *)
  reg_Size : Z;                    (* h.reg.Size() *)
  self : Identity;                 (* h.id *)
  store : signatureStore;
  currLevel : Z;                   (* a byte *)
  best : option MultiSignature;
  out : list MultiSignature;
  out_closed : bool;
  done : bool;
  threshold : Z;
  levels : list Level;
  ticker_stopped : bool;
  proc_stopped : bool;
  incoming : list sigPair;
  sends : list (list Identity * Packet);
  logs : list logEntry
}.

Definition logf (h : Handel) (e : logEntry) : Handel :=
  {| CandidateCount := CandidateCount h; reg_Size := reg_Size h; self := self h;
     store := store h; currLevel := currLevel h; best := best h; out := out h;
     out_closed := out_closed h; done := done h; threshold := threshold h;
     levels := levels h; ticker_stopped := ticker_stopped h;
     proc_stopped := proc_stopped h; incoming := incoming h; sends := sends h;
     logs := logs h ++ [e] |}.

(** [h.net.Send(ids, packet)]. *)
Definition net_Send (h : Handel) (ids : list Identity) (p : Packet) : Handel :=
  {| CandidateCount := CandidateCount h; reg_Size := reg_Size h; self := self h;
     store := store h; currLevel := currLevel h; best := best h; out := out h;
     out_closed := out_closed h; done := done h; threshold := threshold h;
     levels := levels h; ticker_stopped := ticker_stopped h;
     proc_stopped := proc_stopped h; incoming := incoming h;
     sends := sends h ++ [(ids, p)]; logs := logs h |}.

(** [h.proc.Incoming() <- v]. *)
Definition proc_push (h : Handel) (v : sigPair) : Handel :=
  {| CandidateCount := CandidateCount h; reg_Size := reg_Size h; self := self h;
     store := store h; currLevel := currLevel h; best := best h; out := out h;
     out_closed := out_closed h; done := done h; threshold := threshold h;
     levels := levels h; ticker_stopped := ticker_stopped h;
     proc_stopped := proc_stopped h; incoming := incoming h ++ [v];
     sends := sends h; logs := logs h |}.

Definition set_currLevel (h : Handel) (l : Z) : Handel :=
  {| CandidateCount := CandidateCount h; reg_Size := reg_Size h; self := self h;
     store := store h; currLevel := l; best := best h; out := out h;
     out_closed := out_closed h; done := done h; threshold := threshold h;
     levels := levels h; ticker_stopped := ticker_stopped h;
     proc_stopped := proc_stopped h; incoming := incoming h; sends := sends h;
     logs := logs h |}.

Definition set_store (h : Handel) (st : signatureStore) : Handel :=
  {| CandidateCount := CandidateCount h; reg_Size := reg_Size h; self := self h;
     store := st; currLevel := currLevel h; best := best h; out := out h;
     out_closed := out_closed h; done := done h; threshold := threshold h;
     levels := levels h; ticker_stopped := ticker_stopped h;
     proc_stopped := proc_stopped h; incoming := incoming h; sends := sends h;
     logs := logs h |}.

(** [h.best = ms; h.out <- *h.best]. *)
Definition set_best_and_send (h : Handel) (m : MultiSignature) : result Handel :=
  if out_closed h then Panic RuntimeSendOnClosedChannel
  else Ok {| CandidateCount := CandidateCount h; reg_Size := reg_Size h;
             self := self h; store := store h; currLevel := currLevel h;
             best := Some m; out := out h ++ [m];
             out_closed := out_closed h; done := done h;
             threshold := threshold h; levels := levels h;
             ticker_stopped := ticker_stopped h;
             proc_stopped := proc_stopped h; incoming := incoming h;
             sends := sends h; logs := logs h |}.

Definition sendTo (h : Handel) (lvl : Z) (m : MultiSignature)
    (ids : list Identity) : Handel :=
  match MarshalBinary m with
  | (_, Some err) => logf h (LogMarshalError err)
  | (buff, None) =>
      net_Send h ids {| Origin := ID (self h); PacketLevel := byte lvl;
                        MultiSig := buff |}
  end.

(** [func (h *Handel) sendUpdate(l Level, count int)]: [l] is a copy of
    the caller's level, and the copy that [PickNextAt] advances dies
    with the call. *)
Definition sendUpdate (h : Handel) (l : Level) (count : Z) : result Handel :=
  if negb (started l) || finished l then Ok h
  else
    match Combined (store h) (byte (byte (id l) - 1)) with
    | None => Panic PanicShouldNotHappen
    | Some sp =>
        '(l', (newNodes, _)) ← PickNextAt l count;
        let h1 := logf h (LogSending (id l') (BitLength sp) newNodes) in
        Ok (sendTo h1 (id l') sp newNodes)
    end.

(** [parsePacket] returns a pointer and an error. *)
Definition parsePacket (h : Handel) (p : Packet)
    : option MultiSignature * option error :=
  if Origin p >=? int32 (reg_Size h) then (None, Some ErrOriginOutOfRange)
  else
    let lvl := PacketLevel p in (* int(p.Level) widens a byte *)
    if (lvl <? 1) || (lvl >? log2 (reg_Size h))
    then (None, Some (ErrLevelOutOfRange lvl (log2 (reg_Size h)) (reg_Size h)))
    else
      let '(m, err) := Unmarshal (MultiSig p) in
      (Some m, err).

Definition NewPacket (h : Handel) (p : Packet) : result Handel :=
  if done h then Ok h
  else
    match parsePacket h p with
    | (_, Some err) => Ok (logf h (LogInvalidPacket err))
    | (None, None) => Panic RuntimeNilDereference
    | (Some m, None) =>
        let h1 := logf h (LogReceivedPacket (Origin p) (PacketLevel p)) in
        Ok (proc_push h1 {| origin := Origin p; level := PacketLevel p;
                            ms := Some m |})
    end.

(** [Stop]: the panic of [close] on a closed channel ends the call,
    whatever the statements before it did. *)
Definition Stop (h : Handel) : result Handel :=
  if out_closed h then Panic RuntimeCloseOfClosedChannel
  else Ok {| CandidateCount := CandidateCount h; reg_Size := reg_Size h;
             self := self h; store := store h; currLevel := currLevel h;
             best := best h; out := out h;
             out_closed := true; done := true;
             threshold := threshold h; levels := levels h;
             ticker_stopped := true; proc_stopped := true;
             incoming := incoming h; sends := sends h; logs := logs h |}.

(** [for _, lvl := range h.levels { h.sendUpdate(lvl, 1) }] over the
    levels still to visit. *)
Fixpoint periodicUpdate_loop (h : Handel) (lvls : list Level) : result Handel :=
  match lvls with
  | [] => Ok h
  | lvl :: rest => h' ← sendUpdate h lvl 1; periodicUpdate_loop h' rest
  end.

Definition periodicUpdate (h : Handel) : result Handel :=
  periodicUpdate_loop h (levels h).

(** The cursor of [findNextLevel] is live only while it indexes
    [lvls]; this is what is left of the slice from it on. *)
Definition slots_left (lvls : list Level) (l : Z) : nat :=
  let i := int (l - 1) in
  if (0 <=? i) && (i <? len lvls) then Z.to_nat (len lvls - i) else O.

(** [findNextLevel]: the loop [for l := lvl + 1; lvl <= len(h.levels); l++].
    Its guard reads [lvl], which the loop never changes. *)
Equations? findNextLevel_loop (lvls : list Level) (lvl l : Z)
    : result (Z * option error) by wf (slots_left lvls l) lt :=
  findNextLevel_loop lvls lvl l with (lvl <=? len lvls) => {
    | false := Ok (0, Some ErrNoNonEmptyLevel);
    | true with Logic.inspect (index lvls (int (l - 1))) => {
        | exist _ None _ := Panic RuntimeIndexOutOfRange;
        | exist _ (Some lv) Hidx with (len (nodes lv) =? 0) => {
            | true := findNextLevel_loop lvls lvl (int (l + 1));
            | false := Ok (l, None) } } }.
Proof.
  clear findNextLevel_loop.
  assert (Hr : 0 <= int (l - 1) < len lvls).
  { unfold index in Hidx. destruct (Z.ltb_spec (int (l - 1)) 0); [discriminate |].
    apply lookup_lt_Some in Hidx. unfold len. lia. }
  unfold slots_left.
  assert (Hn : int (int (l + 1) - 1) = int (l - 1) + 1 \/ int (int (l + 1) - 1) < 0).
  { revert Hr. generalize (len lvls). intros n. unfold int, signed.
    change (2 ^ (64 - 1)) with 9223372036854775808.
    change (2 ^ 64) with 18446744073709551616.
    intros Hr. Z.to_euclidean_division_equations. lia. }
  destruct (Z.leb_spec 0 (int (l - 1))); [| lia].
  destruct (Z.ltb_spec (int (l - 1)) (len lvls)); [| lia].
  destruct (Z.leb_spec 0 (int (int (l + 1) - 1)));
    destruct (Z.ltb_spec (int (int (l + 1) - 1)) (len lvls)); simpl; lia.
Qed.

Definition findNextLevel (h : Handel) (lvl : Z) : result (Z * option error) :=
  findNextLevel_loop (levels h) lvl (int (lvl + 1)).

Definition sendBestUpTo (h : Handel) (lvl : Z) : result Handel :=
  if (lvl <? 0) || (lvl >=? len (levels h))
  then Panic (PanicSkipSendingBest lvl (len (levels h)))
  else
    '(levelToSend, err) ← findNextLevel h lvl;
    match err with
    | Some e => Panic (PanicError e)
    | None =>
        match index (levels h) (int (levelToSend - 1)) with
        | None => Panic RuntimeIndexOutOfRange
        | Some l => sendUpdate h l (CandidateCount h)
        end
    end.

Definition startNextLevel (h : Handel) : result Handel :=
  if currLevel h >=? len (levels h)
  then (* protocol is finished *)
    Ok (logf h (LogProtocolFinished (currLevel h)))
  else
    h1 ← sendBestUpTo h (currLevel h);
    (* increase the max level we are at *)
    let h2 := set_currLevel h1 (byte (currLevel h1 + 1)) in
    Ok (logf h2 (LogPassing (byte (currLevel h2 - 1)) (currLevel h2))).

(** The closure [newBest] of [checkFinalSignature]. *)
Definition newBest (h : Handel) (m : MultiSignature) : result Handel :=
  if done h then Ok h else set_best_and_send h m.

Definition checkFinalSignature (h : Handel) (s : sigPair) : result Handel :=
  match FullSignature (store h) with
  | None => Panic RuntimeNilDereference
  | Some fsig =>
      if Cardinality fsig <? threshold h then Ok h
      else
        match best h with
        | None => newBest h fsig
        | Some b =>
            let newCard := Cardinality fsig in
            let local := Cardinality b in
            if newCard >? local then newBest h fsig else Ok h
        end
  end.

(** [lvl] is a copy of [h.levels[s.level-1]]; [updateBestSig] works on
    the copy. *)
Definition checkCompletedLevel (h : Handel) (s : sigPair) : result Handel :=
  match index (levels h) (byte (level s - 1)) with
  | None => Panic RuntimeIndexOutOfRange
  | Some lvl =>
      if completed lvl then Ok h (* fast exit *)
      else
        let '(m, ok) := Best (store h) (level s) in
        if negb ok then Panic PanicStoreWrong
        else
          '(lvl', r) ← updateBestSig lvl m;
          if negb r then Ok h
          else if level s =? currLevel h then startNextLevel h
          else if id lvl' <? int (len (levels h) - 1)
               then sendBestUpTo h (id lvl')
               else Ok h
  end.

(** [h.actors], in the order [NewHandel] registers them. *)
Definition actors : list (Handel -> sigPair -> result Handel) :=
  [checkCompletedLevel; checkFinalSignature].

Fixpoint run_actors (acts : list (Handel -> sigPair -> result Handel))
    (h : Handel) (v : sigPair) : result Handel :=
  match acts with
  | [] => Ok h
  | a :: rest => h' ← a h v; run_actors rest h' v
  end.

(** One round of the loop of [rangeOnVerified] for the verified pair
    [v].  [st'] is the store as [h.store.Store(v.level, v.ms)] leaves
    it; the store's own code is not in this file. *)
Definition onVerified (h : Handel) (v : sigPair) (st' : signatureStore)
    : result Handel :=
  let h1 := logf h (LogVerified v) in
  let h2 := set_store h1 st' in
  run_actors actors h2 v.

Definition Start (h : Handel) : result Handel := startNextLevel h.

(** The state [NewHandel] returns: [levels] from [createLevels], no
    [best], an empty open channel, [currLevel] zero.  [thr] is
    [h.c.ContributionsThreshold(h.reg.Size())] and [st] the store after
    [h.store.Store(0, mySig)]. *)
Definition NewHandel (size : Z) (me : Identity) (cc thr : Z)
    (pick : Z -> Z -> list Identity * bool) (st : signatureStore)
    : result Handel :=
  lvls ← createLevels size pick;
  Ok {| CandidateCount := cc; reg_Size := size; self := me; store := st;
        currLevel := 0; best := None; out := []; out_closed := false;
        done := false; threshold := thr; levels := lvls;
        ticker_stopped := false; proc_stopped := false;
        incoming := []; sends := []; logs := [] |}.

(** ** Runs of the aggregator *)

(** What can happen to a running aggregator.  All but [EvStored] are
    served under the aggregator's lock; [EvStored] is a write to the
    store becoming visible while another goroutine holds the lock or
    before the actors run. *)
Inductive event : Type :=
| EvStart
| EvTick                                         (* the ticker fires *)
| EvPacket (p : Packet)                          (* the network delivers *)
| EvStored (st' : signatureStore)                (* the store changes *)
| EvVerified (v : sigPair) (st' : signatureStore)  (* the verifier delivers *)
| EvStop.

Definition step (h : Handel) (e : event) : result Handel :=
  match e with
  | EvStart => Start h
  | EvTick => periodicUpdate h
  | EvPacket p => NewPacket h p
  | EvStored st' => Ok (set_store h st')
  | EvVerified v st' => onVerified h v st'
  | EvStop => Stop h
  end.

Fixpoint run (h : Handel) (es : list event) : result Handel :=
  match es with
  | [] => Ok h
  | e :: rest => h' ← step h e; run h' rest
  end.

End Definitions.

(** ** Invariants *)

Section Invariants.
Context `{Collaborators}.

(** What every [Level] built by [NewLevel] and driven through its two
    methods satisfies: its [int] fields hold [int] values, the cursor
    points into [nodes] (or rests at zero when there are none), and
    [finished] is only ever raised by a [sent] that covers [nodes]. *)
Definition Level_inv (l : Level) : Prop :=
  len (nodes l) <= maxInt /\
  0 <= pos l /\ (pos l < len (nodes l) \/ (nodes l = [] /\ pos l = 0)) /\
  0 <= sent l <= maxInt /\
  0 <= currentBestSize l <= len (nodes l) /\
  (finished l = true -> len (nodes l) <= sent l).

(** [k] calls of [PickNextAt(1)] in a row, with the peers they return. *)
Fixpoint pick_ones (l : Level) (k : nat) : result (Level * list Identity) :=
  match k with
  | O => Ok (l, [])
  | S k' =>
      '(l1, (res, _)) ← PickNextAt l 1;
      '(l2, rest) ← pick_ones l1 k';
      Ok (l2, res ++ rest)
  end.

(** The two methods of a [Level], as calls a client can make. *)
Inductive level_call : Type :=
| CallPickNextAt (count : Z)
| CallUpdateBestSig (m : option MultiSignature).

Definition level_step (l : Level) (c : level_call) : result Level :=
  match c with
  | CallPickNextAt count => '(l', _) ← PickNextAt l count; Ok l'
  | CallUpdateBestSig m => '(l', _) ← updateBestSig l m; Ok l'
  end.

Fixpoint level_run (l : Level) (cs : list level_call) : result Level :=
  match cs with
  | [] => Ok l
  | c :: rest => l' ← level_step l c; level_run l' rest
  end.

(** Everything in an aggregator but [currLevel], the calls made on the
    network and the log. *)
Definition core (h : Handel) :=
  (CandidateCount h, reg_Size h, self h, store h, best h, out h,
   out_closed h, done h, threshold h, levels h, ticker_stopped h,
   proc_stopped h, incoming h).

(** Two aggregator states that differ at most in what was sent to the
    network and in the log. *)
Definition same_but_sends (h h' : Handel) : Prop :=
  core h' = core h /\ currLevel h' = currLevel h.

(** The outputs so far are above the threshold and each is larger than
    all before it; [best] is the last of them. *)
Definition emissions_ok (h : Handel) : Prop :=
  Forall (fun m => threshold h <= Cardinality m) (out h) /\
  StronglySorted Z.lt (map Cardinality (out h)) /\
  match best h with
  | None => out h = []
  | Some b => last (out h) = Some b
  end.

(** One output: [h'] is [h] after [m] went out as the new best. *)
Definition emitted (h : Handel) (m : MultiSignature) (h' : Handel) : Prop :=
  done h = false /\
  threshold h <= Cardinality m /\
  match best h with
  | None => True
  | Some b => Cardinality b < Cardinality m
  end /\
  out h' = out h ++ [m] /\ best h' = Some m /\
  levels h' = levels h /\ threshold h' = threshold h /\ done h' = done h /\
  incoming h' = incoming h.

(** A level as [NewLevel] makes it. *)
Definition fresh (l : Level) : Prop :=
  completed l = false /\ finished l = false /\ pos l = 0 /\ sent l = 0 /\
  currentBestSize l = 0.

End Invariants.

(** ** A concrete aggregator *)

Module Demo.

(** Identities are their IDs; [log2] rounds up; a multi-signature
    travels as one byte per bit. *)
Definition byte_of_bit (b : bool) : Byte.byte := if b then Byte.x01 else Byte.x00.
Definition bit_of_byte (b : Byte.byte) : bool :=
  match b with Byte.x00 => false | _ => true end.

#[global] Instance collaborators : Collaborators := {|
  Identity := Z;
  ID := fun i => i;
  log2 := Z.log2_up;
  Unmarshal := fun buff => ({| bits := map bit_of_byte buff; sig_bytes := [] |}, None);
  MarshalBinary := fun m => (map byte_of_bit (bits m), None)
|}.

Definition ms_of (bs : list bool) : MultiSignature :=
  {| bits := bs; sig_bytes := [] |}.

(** Node 0 of four: level 1 is node 1, level 2 is nodes 2 and 3. *)
Definition pick4 (lvl bound : Z) : list Z * bool :=
  if lvl =? 1 then ([1], true)
  else if lvl =? 2 then ([2; 3], true)
  else ([], false).


(** A store that has the node's own signature and nothing combined. *)
Definition store_nil : signatureStore :=
  {| Best := fun _ => (None, false);
     Combined := fun _ => None;
     FullSignature := Some (ms_of [true; false; false; false]) |}.

(** A store that answers every query with [m]. *)
Definition store_all (m : MultiSignature) : signatureStore :=
  {| Best := fun _ => (Some m, true);
     Combined := fun _ => Some m;
     FullSignature := Some m |}.

(** A store whose best at every level is [b] and whose combined and
    full signatures are [full]. *)
Definition store_of (b full : MultiSignature) : signatureStore :=
  {| Best := fun _ => (Some b, true);
     Combined := fun _ => Some full;
     FullSignature := Some full |}.

Definition level_of (i : Z) (ns : list Z) : Level :=
  {| id := i; nodes := ns; started := true; completed := false;
     finished := false; pos := 0; sent := 0; currentBestSize := 0 |}.

Definition handel_of (lvls : list Level) (st : signatureStore) : Handel :=
  {| CandidateCount := 10; reg_Size := 4; self := 0; store := st;
     currLevel := 0; best := None; out := []; out_closed := false;
     done := false; threshold := 2; levels := lvls;
     ticker_stopped := false; proc_stopped := false;
     incoming := []; sends := []; logs := [] |}.

(** Node 0 of four as [NewHandel] builds it, threshold 2. *)
Definition handel4 : Handel :=
  handel_of [level_of 1 [1]; level_of 2 [2; 3]] store_nil.

(** A verified pair for level 1, from node 1. *)
Definition pair1 : sigPair :=
  {| origin := 1; level := 1; ms := Some (ms_of [true]) |}.

End Demo.


(** ** Overlay connectors (package [main]) *)

(** What the connectors use of the peer-to-peer node: its Handel ID, the
    ID of an identity, and [node.Connect], which may change the node and
    may fail. *)
Class Overlay : Type := {
  P2PNode : Type;
  P2PIdentity : Type;
  (** [node.handelID], an [int32] *)
  handelID : P2PNode -> Z;
  (** [identity.Identity.ID()], an [int32] *)
  identity_ID : P2PIdentity -> Z;
  (** [node.Connect(identity)]: the node afterwards and the error *)
  node_Connect : P2PNode -> P2PIdentity -> P2PNode * option error
}.

(** How a call of [Connect] ends. *)
Inductive connectEnd : Type :=
| Returned (err : option error)   (* return err / return nil *)
| PanicLooping                    (* panic("aie") *)
| PanicIndex                      (* ids[i] out of range *)
| PanicIntn.                      (* rand.Intn(n) with n <= 0 *)

Section Connectors.
Context `{Overlay}.

(** A call of [Connect] leaves the node, the identities it passed to
    [node.Connect], in order, and its end. *)
Definition connectRun : Type := P2PNode * list P2PIdentity * connectEnd.

(** The loop [for chosen := 0; chosen < max; chosen++] of
    [neighbor.Connect] with [k] iterations left; [continue] runs the
    [chosen++] too, so the skip of the own ID uses up an iteration. *)
Fixpoint neighbor_loop (ids : list P2PIdentity) (nodeID n : Z) (k : nat)
    (baseID : Z) (firstLoop : bool) (node : P2PNode)
    (calls : list P2PIdentity) : connectRun :=
  match k with
  | O => (node, calls, Returned None)
  | S k' =>
      if (baseID =? n) && firstLoop then (node, calls, PanicLooping)
      else
        let '(baseID1, firstLoop1) :=
          if baseID =? n then (0, true) else (baseID, firstLoop) in
        if baseID1 =? nodeID
        then neighbor_loop ids nodeID n k' (int (baseID1 + 1)) firstLoop1 node calls
        else
          match index ids baseID1 with
          | None => (node, calls, PanicIndex)
          | Some idt =>
              let '(node', err) := node_Connect node idt in
              match err with
              | Some e => (node', calls ++ [idt], Returned (Some e))
              | None =>
                  neighbor_loop ids nodeID n k' (int (baseID1 + 1)) firstLoop1
                    node' (calls ++ [idt])
              end
          end
  end.

(** [Connect(node, ids, max)] of the [neighbor] connector. *)
Definition neighbor_Connect (node : P2PNode) (ids : list P2PIdentity)
    (max : Z) : connectRun :=
  let nodeID := handelID node in (* int(node.handelID) widens an int32 *)
  let baseID := nodeID in
  let n := len ids in
  let firstLoop := false in
  neighbor_loop ids nodeID n (Z.to_nat max) baseID firstLoop node [].

(** The loop of [random.Connect].  [draws] are the values [rand.Intn(n)]
    returns, in order; [None] means the loop asked for more of them than
    [draws] has. *)
Fixpoint random_loop (ids : list P2PIdentity) (own n max : Z)
    (draws : list Z) (chosen : Z) (node : P2PNode)
    (calls : list P2PIdentity) {struct draws} : option connectRun :=
  if chosen <? max then
    if n <=? 0 then Some (node, calls, PanicIntn)
    else
      match draws with
      | [] => None
      | r :: rest =>
          match index ids r with
          | None => Some (node, calls, PanicIndex)
          | Some idt =>
              if identity_ID idt =? own
              then (* chosen--; continue *)
                random_loop ids own n max rest (int (int (chosen - 1) + 1))
                  node calls
              else
                let '(node', err) := node_Connect node idt in
                match err with
                | Some e => Some (node', calls ++ [idt], Returned (Some e))
                | None =>
                    random_loop ids own n max rest (int (chosen + 1)) node'
                      (calls ++ [idt])
                end
          end
      end
  else Some (node, calls, Returned None).

(** [Connect(node, ids, max)] of the [random] connector. *)
Definition random_Connect (node : P2PNode) (ids : list P2PIdentity)
    (max : Z) (draws : list Z) : option connectRun :=
  let n := len ids in
  let own := handelID node in
  random_loop ids own n max draws 0 node [].

End Connectors.

(** ** Notions used to state what the aggregator does *)

Section Notions.
Context `{Collaborators}.

(** The cursor of a level points into its nodes, or rests at zero when
    there are none; [nodes] is a Go slice. *)
Definition cursor_ok (l : Level) : Prop :=
  len (nodes l) <= maxInt /\
  ((0 <= pos l /\ pos l < len (nodes l)) \/ (nodes l = [] /\ pos l = 0)).

(** The packet [sendUpdate] builds for level [l] from the combined
    signature [sp]. *)
Definition update_packet (h : Handel) (l : Level) (sp : MultiSignature) : Packet :=
  {| Origin := ID (self h); PacketLevel := byte (id l);
     MultiSig := fst (MarshalBinary sp) |}.

(** A level that [sendUpdate] will serve: started, not finished. *)
Definition active (l : Level) : Prop :=
  started l = true /\ finished l = false.

(** The levels are as [createLevels] numbers them: level [i + 1] at
    index [i]. *)
Definition numbered (lvls : list Level) : Prop :=
  forall i l, index lvls i = Some l -> id l = i + 1.

End Notions.

Module DemoOverlay.

(** A node is its ID with the IDs it is connected to; every connection
    succeeds. *)
#[global] Instance overlay : Overlay := {|
  P2PNode := Z * list Z;
  P2PIdentity := Z;
  handelID := fun nd => fst nd;
  identity_ID := fun i => i;
  node_Connect := fun nd i => ((fst nd, snd nd ++ [i]), None)
|}.

(** The same node on a network where no ID above 99 can be reached. *)
Definition flaky : Overlay := {|
  P2PNode := Z * list Z;
  P2PIdentity := Z;
  handelID := fun nd => fst nd;
  identity_ID := fun i => i;
  node_Connect := fun nd i =>
    if i >? 99 then (nd, Some ErrExternal) else ((fst nd, snd nd ++ [i]), None)
|}.

End DemoOverlay.

(** * Properties *)

(** ** Integers and slices *)

Lemma int_small (z : Z) : minInt <= z <= maxInt -> int z = z.
Proof.
  unfold int, signed, minInt, maxInt. intros Hz.
  change (2 ^ (64 - 1)) with 9223372036854775808.
  change (2 ^ 63) with 9223372036854775808 in Hz.
  change (2 ^ 64) with 18446744073709551616.
  rewrite Z.mod_small; lia.
Qed.

Lemma int_range (z : Z) : minInt <= int z <= maxInt.
Proof.
  unfold int, signed, minInt, maxInt.
  change (2 ^ (64 - 1)) with 9223372036854775808.
  change (2 ^ 63) with 9223372036854775808.
  change (2 ^ 64) with 18446744073709551616.
  pose proof (Z.mod_pos_bound (z + 9223372036854775808) 18446744073709551616).
  lia.
Qed.

Lemma maxInt_pos : 256 < maxInt.
Proof. reflexivity. Qed.

Lemma minInt_neg : minInt < 0.
Proof. reflexivity. Qed.

Lemma byte_small (z : Z) : 0 <= z < 256 -> byte z = z.
Proof. intros Hz. unfold byte. apply Z.mod_small. lia. Qed.

Lemma byte_range (z : Z) : 0 <= byte z < 256.
Proof. unfold byte. apply Z.mod_pos_bound. lia. Qed.

Lemma len_nonneg {A : Type} (s : list A) : 0 <= len s.
Proof. unfold len. lia. Qed.

Lemma len_nil_inv {A : Type} (s : list A) : len s = 0 -> s = [].
Proof. destruct s; [reflexivity | unfold len; simpl; lia]. Qed.

Lemma len_app {A : Type} (s t : list A) : len (s ++ t) = len s + len t.
Proof. unfold len. rewrite length_app. lia. Qed.

Lemma index_Some_range {A : Type} (s : list A) (i : Z) (x : A) :
  index s i = Some x -> 0 <= i < len s.
Proof.
  unfold index, len. destruct (Z.ltb_spec i 0) as [Hneg | Hpos]; [discriminate |].
  intros Hx. apply lookup_lt_Some in Hx. lia.
Qed.

Lemma index_in_range {A : Type} (s : list A) (i : Z) :
  0 <= i < len s -> exists x, index s i = Some x.
Proof.
  unfold index, len. intros Hi.
  destruct (Z.ltb_spec i 0) as [Hneg | Hpos]; [lia |].
  destruct (lookup_lt_is_Some_2 s (Z.to_nat i)) as [x Hx]; [lia |].
  exists x. exact Hx.
Qed.

Lemma index_out_of_range {A : Type} (s : list A) (i : Z) :
  i < 0 \/ len s <= i -> index s i = None.
Proof.
  unfold index, len. intros Hi.
  destruct (Z.ltb_spec i 0) as [Hneg | Hpos]; [reflexivity |].
  apply lookup_ge_None. lia.
Qed.

Lemma index_app_l {A : Type} (s t : list A) (i : Z) :
  i < len s -> index (s ++ t) i = index s i.
Proof.
  unfold index, len. intros Hi.
  destruct (Z.ltb_spec i 0) as [Hneg | Hpos]; [reflexivity |].
  apply lookup_app_l. lia.
Qed.

Lemma Cardinality_nonneg (m : MultiSignature) : 0 <= Cardinality m.
Proof. unfold Cardinality. lia. Qed.

Lemma bind_Ok_inv {A B : Type} (r : result A) (k : A -> result B) (b : B) :
  r ≫= k = Ok b -> exists a, r = Ok a /\ k a = Ok b.
Proof. destruct r as [a | p]; simpl; [eauto | discriminate]. Qed.

Lemma index_cons_0 {A : Type} (x : A) (s : list A) : index (x :: s) 0 = Some x.
Proof. reflexivity. Qed.

Lemma index_cons_pos {A : Type} (x : A) (s : list A) (i : Z) :
  0 < i -> index (x :: s) i = index s (i - 1).
Proof.
  intros Hi. unfold index.
  destruct (Z.ltb_spec i 0); [lia |]. destruct (Z.ltb_spec (i - 1) 0); [lia |].
  replace (Z.to_nat i) with (S (Z.to_nat (i - 1))) by lia. reflexivity.
Qed.

(** ** Levels *)

Section LevelProperties.
Context `{Collaborators}.

(** The cursor after one step: one further, or back at the start. *)
Lemma cursor_step (n p : Z) :
  0 < n <= maxInt -> 0 <= p < n ->
  (if int (p + 1) >=? n then 0 else int (p + 1)) = (p + 1) mod n.
Proof.
  intros Hn Hp. rewrite int_small by (pose proof minInt_neg; lia).
  destruct (Z.geb_spec (p + 1) n) as [Hge | Hlt].
  - replace (p + 1) with n by lia. symmetry. apply Z_mod_same_full.
  - symmetry. apply Z.mod_small. lia.
Qed.

Lemma PickNextAt_loop_spec (ns : list Identity) (n : nat) :
  0 < len ns <= maxInt ->
  forall (p : Z) (res : list Identity),
    0 <= p < len ns ->
    exists picked,
      PickNextAt_loop ns n p res =
        Ok ((p + Z.of_nat n) mod len ns, res ++ picked) /\
      len picked = Z.of_nat n /\
      forall i, 0 <= i < Z.of_nat n ->
        index picked i = index ns ((p + i) mod len ns).
Proof.
  intros Hns. induction n as [| n IH]; intros p res Hp.
  - exists []. simpl. rewrite Z.add_0_r, Z.mod_small by lia.
    rewrite app_nil_r. split; [reflexivity | split; [reflexivity | intros; lia]].
  - destruct (index_in_range ns p Hp) as [x Hx].
    cbn [PickNextAt_loop]. rewrite Hx. cbv zeta.
    rewrite cursor_step by assumption.
    destruct (IH ((p + 1) mod len ns) (res ++ [x])) as (picked & Hrun & Hlen & Hidx).
    { apply Z.mod_pos_bound. lia. }
    exists (x :: picked). split; [| split].
    + rewrite Hrun. rewrite <- app_assoc. simpl.
      rewrite Zplus_mod_idemp_l. do 3 f_equal. lia.
    + unfold len in *. simpl. lia.
    + intros i Hi. destruct (Z.eq_dec i 0) as [-> | Hne].
      * rewrite index_cons_0, Z.add_0_r, Z.mod_small by lia. symmetry. exact Hx.
      * rewrite index_cons_pos by lia. rewrite Hidx by lia.
        rewrite Zplus_mod_idemp_l. f_equal. f_equal. lia.
Qed.

(** [PickNextAt] on a level whose cursor is in range: what it returns and
    what it leaves in the level.  Nothing here depends on [sent]. *)
Lemma PickNextAt_picks (l : Level) (count : Z) :
  0 < len (nodes l) <= maxInt -> 0 <= pos l < len (nodes l) -> 0 <= count ->
  exists res,
    PickNextAt l count =
      Ok ({| id := id l; nodes := nodes l; started := started l;
             completed := completed l;
             finished := (if int (sent l + len res) >=? len (nodes l)
                          then true else finished l);
             pos := (pos l + len res) mod len (nodes l);
             sent := int (sent l + len res);
             currentBestSize := currentBestSize l |}, (res, true)) /\
    len res = Z.min count (len (nodes l)) /\
    forall i, 0 <= i < len res ->
      index res i = index (nodes l) ((pos l + i) mod len (nodes l)).
Proof.
  intros Hns Hpos Hcount. unfold PickNextAt.
  set (size := Z.min count (len (nodes l))).
  assert (Hsize : 0 <= size) by (unfold size; lia).
  destruct (Z.ltb_spec size 0) as [Hneg | _]; [lia |].
  destruct (PickNextAt_loop_spec (nodes l) (Z.to_nat size) Hns (pos l) [] Hpos)
    as (picked & Hrun & Hlen & Hidx).
  rewrite Z2Nat.id in * by assumption.
  exists picked. rewrite Hrun. simpl. rewrite Hlen.
  split; [reflexivity | split; [reflexivity | intros i Hi; apply Hidx; lia]].
Qed.

Lemma index_app_r {A : Type} (s t : list A) (i : Z) :
  len s <= i -> index (s ++ t) i = index t (i - len s).
Proof.
  unfold index, len. intros Hi.
  destruct (Z.ltb_spec i 0); [lia |].
  destruct (Z.ltb_spec (i - Z.of_nat (length s)) 0); [lia |].
  rewrite lookup_app_r by lia. f_equal. lia.
Qed.

(** [PickNextAt] on a level without candidates. *)
Lemma PickNextAt_empty (l : Level) (count : Z) :
  nodes l = [] -> 0 <= count -> 0 <= sent l <= maxInt ->
  PickNextAt l count =
    Ok ({| id := id l; nodes := nodes l; started := started l;
           completed := completed l; finished := true; pos := pos l;
           sent := sent l; currentBestSize := currentBestSize l |},
        ([], true)).
Proof.
  intros Hnil Hcount Hsent. unfold PickNextAt. rewrite Hnil.
  change (len []) with 0. rewrite Z.min_r by assumption. simpl.
  rewrite Z.add_0_r, int_small by (pose proof minInt_neg; lia).
  destruct (Z.geb_spec (sent l) 0); [reflexivity | lia].
Qed.

Lemma NewLevel_inv (i : Z) (ns : list Identity) (l : Level) :
  len ns <= maxInt -> NewLevel i ns = Ok l -> Level_inv l.
Proof.
  intros Hns. unfold NewLevel. destruct (i <=? 0); [discriminate |].
  intros [= <-]. unfold Level_inv. simpl.
  pose proof (len_nonneg ns). pose proof maxInt_pos.
  repeat split; try lia; try discriminate.
  destruct ns as [| x ns']; [right; split; reflexivity | left].
  unfold len. simpl. lia.
Qed.

Lemma updateBestSig_inv (l : Level) (m : option MultiSignature) (l' : Level) (r : bool) :
  Level_inv l -> updateBestSig l m = Ok (l', r) -> Level_inv l'.
Proof.
  intros Hinv. unfold updateBestSig. destruct m as [m |]; [| discriminate].
  destruct (Z.gtb_spec (Cardinality m) (len (nodes l))); [discriminate |].
  destruct (Z.geb_spec (currentBestSize l) (Cardinality m)).
  - intros [= <- <-]. exact Hinv.
  - intros [= <- <-]. unfold Level_inv in *. simpl.
    pose proof maxInt_pos. pose proof (Cardinality_nonneg m).
    repeat split; try lia; try tauto; try discriminate.
Qed.

Lemma PickNextAt_inv (l : Level) (count : Z) (l' : Level) (r : list Identity * bool) :
  Level_inv l -> sent l + Z.min count (len (nodes l)) <= maxInt ->
  PickNextAt l count = Ok (l', r) -> Level_inv l'.
Proof.
  intros Hinv Hsent Hrun.
  destruct (Z.ltb_spec count 0) as [Hneg | Hcount].
  { unfold PickNextAt in Hrun. pose proof (len_nonneg (nodes l)).
    destruct (Z.ltb_spec (Z.min count (len (nodes l))) 0); [discriminate | lia]. }
  unfold Level_inv in Hinv.
  destruct Hinv as (Hlen & Hp0 & Hp & Hs & Hbest & Hfin).
  destruct Hp as [Hp | [Hnil Hp]].
  - destruct (PickNextAt_picks l count) as (res & Hpick & Hres & _); try lia.
    rewrite Hpick in Hrun. injection Hrun as <- <-.
    unfold Level_inv. simpl. rewrite Hres.
    rewrite int_small by (pose proof minInt_neg; lia).
    pose proof (Z.mod_pos_bound (pos l + Z.min count (len (nodes l))) (len (nodes l))).
    repeat split; try lia.
    destruct (Z.geb_spec (sent l + Z.min count (len (nodes l))) (len (nodes l)));
      [lia | intros Hf; apply Hfin in Hf; lia].
  - rewrite PickNextAt_empty in Hrun by assumption. injection Hrun as <- <-.
    unfold Level_inv. simpl. rewrite Hnil. change (len []) with 0.
    rewrite Hnil in Hbest. change (len []) with 0 in Hbest.
    repeat split; try lia. right. split; [reflexivity | assumption].
Qed.

(** Single picks in a row walk the candidates in order, wrapping. *)
Lemma pick_ones_round_robin (k : nat) :
  forall l : Level,
    0 < len (nodes l) <= maxInt -> 0 <= pos l < len (nodes l) ->
    exists l' peers,
      pick_ones l k = Ok (l', peers) /\
      nodes l' = nodes l /\
      pos l' = (pos l + Z.of_nat k) mod len (nodes l) /\
      len peers = Z.of_nat k /\
      forall j, 0 <= j < Z.of_nat k ->
        index peers j = index (nodes l) ((pos l + j) mod len (nodes l)).
Proof.
  induction k as [| k IH]; intros l Hns Hpos.
  - exists l, []. simpl. rewrite Z.add_0_r, Z.mod_small by lia.
    repeat split; intros; lia.
  - destruct (PickNextAt_picks l 1 Hns Hpos) as (res & Hpick & Hres & Hidx); [lia |].
    rewrite Z.min_l in Hres by lia.
    cbn [pick_ones]. rewrite Hpick. simpl.
    match goal with
    | |- context [pick_ones ?l1 k] => destruct (IH l1) as (l2 & rest & Hrun & Hn & Hp & Hlen & Hrest)
    end.
    { simpl. exact Hns. }
    { simpl. apply Z.mod_pos_bound. lia. }
    simpl in Hn, Hp, Hrest. rewrite Hres in Hp, Hrest.
    rewrite Hrun. simpl. exists l2, (res ++ rest).
    split; [reflexivity |]. split; [exact Hn |]. split; [| split].
    + rewrite Hp, Zplus_mod_idemp_l. f_equal. lia.
    + rewrite len_app. lia.
    + intros j Hj. destruct (Z.eq_dec j 0) as [-> | Hne].
      * rewrite index_app_l by lia. apply Hidx. lia.
      * rewrite index_app_r by lia. rewrite Hres, Hrest by lia.
        rewrite Zplus_mod_idemp_l. do 2 f_equal. lia.
Qed.

End LevelProperties.

Section LevelClaims.
Context `{Collaborators}.

(** C4.  [updateBestSig] on a signature that fits the level: when its
    cardinality does not exceed [currentBestSize] (equal included), the
    call returns [false] and the level is unchanged; otherwise the level
    takes the new cardinality as [currentBestSize], [sent] goes back to
    zero, [finished] is cleared, nothing else moves, and the call returns
    [true] exactly when the new [currentBestSize] equals the number of
    nodes.  A signature with more contributors than the level has nodes
    makes the call panic with the "Too many signatures" message. *)
Theorem updateBestSig_strictly_monotone (l : Level) (m : MultiSignature) :
  (Cardinality m <= len (nodes l) -> Cardinality m <= currentBestSize l ->
   updateBestSig l (Some m) = Ok (l, false)) /\
  (Cardinality m <= len (nodes l) -> currentBestSize l < Cardinality m ->
   exists l' r,
     updateBestSig l (Some m) = Ok (l', r) /\
     currentBestSize l' = Cardinality m /\ sent l' = 0 /\ finished l' = false /\
     (r = true <-> currentBestSize l' = len (nodes l')) /\
     id l' = id l /\ nodes l' = nodes l /\ started l' = started l /\
     completed l' = completed l /\ pos l' = pos l) /\
  (len (nodes l) < Cardinality m ->
   updateBestSig l (Some m) =
     Panic (PanicTooManySignatures (id l) (len (nodes l)) (Cardinality m))).
Proof.
  unfold updateBestSig. split; [| split].
  - intros Hfit Hle.
    destruct (Z.gtb_spec (Cardinality m) (len (nodes l))); [lia |].
    destruct (Z.geb_spec (currentBestSize l) (Cardinality m)); [reflexivity | lia].
  - intros Hfit Hlt.
    destruct (Z.gtb_spec (Cardinality m) (len (nodes l))); [lia |].
    destruct (Z.geb_spec (currentBestSize l) (Cardinality m)); [lia |].
    eexists _, _. split; [reflexivity |]. simpl.
    repeat split; try reflexivity.
    + intros Hr. apply Z.eqb_eq. exact Hr.
    + intros Hr. apply Z.eqb_eq. exact Hr.
  - intros Hbig.
    destruct (Z.gtb_spec (Cardinality m) (len (nodes l))); [reflexivity | lia].
Qed.

(** C6.  [PickNextAt(count)] on a level with candidates, [count >= 0]:
    it returns the next [min(count, |nodes|)] peers from the cursor on,
    wrapping at the end; the cursor advances by that number modulo
    [|nodes|]; [sent] grows by that number; afterwards [finished] holds
    exactly when [sent >= |nodes|]; the other fields are untouched.
    Calls of [PickNextAt(1)] in a row return the peers in round-robin
    order.  The level is one that [NewLevel] and the two methods can
    produce ([Level_inv]) and [sent] stays an [int]. *)
Theorem PickNextAt_round_robin (l : Level) (count : Z) :
  Level_inv l -> 0 < len (nodes l) -> 0 <= count ->
  sent l + Z.min count (len (nodes l)) <= maxInt ->
  (exists l' res,
     PickNextAt l count = Ok (l', (res, true)) /\
     len res = Z.min count (len (nodes l)) /\
     (forall i, 0 <= i < len res ->
        index res i = index (nodes l) ((pos l + i) mod len (nodes l))) /\
     pos l' = (pos l + len res) mod len (nodes l) /\
     sent l' = sent l + len res /\
     (finished l' = true <-> len (nodes l) <= sent l') /\
     id l' = id l /\ nodes l' = nodes l /\ started l' = started l /\
     completed l' = completed l /\ currentBestSize l' = currentBestSize l) /\
  (forall k : nat, exists lk peers,
     pick_ones l k = Ok (lk, peers) /\
     len peers = Z.of_nat k /\
     pos lk = (pos l + Z.of_nat k) mod len (nodes l) /\
     forall j, 0 <= j < Z.of_nat k ->
       index peers j = index (nodes l) ((pos l + j) mod len (nodes l))).
Proof.
  intros Hinv Hne Hcount Hsent.
  destruct Hinv as (Hlen & Hp0 & Hp & Hs & Hbest & Hfin).
  assert (Hpos : 0 <= pos l < len (nodes l)).
  { destruct Hp as [Hp | [Hnil _]]; [lia |]. rewrite Hnil in Hne. discriminate. }
  split.
  - destruct (PickNextAt_picks l count) as (res & Hpick & Hres & Hidx); try lia.
    eexists _, res. split; [exact Hpick |]. simpl.
    rewrite int_small by (pose proof minInt_neg; lia).
    split; [exact Hres |]. split; [exact Hidx |].
    split; [reflexivity |]. split; [reflexivity |].
    split; [| repeat split; reflexivity].
    destruct (Z.geb_spec (sent l + len res) (len (nodes l))) as [Hge | Hlt].
    + split; [lia | reflexivity].
    + split; [intros Hf; apply Hfin in Hf; lia | lia].
  - intros k.
    destruct (pick_ones_round_robin k l) as (lk & peers & Hrun & _ & Hpk & Hlk & Hidx);
      try lia.
    exists lk, peers. repeat split; assumption.
Qed.

(** On the [Level] value it is called on, [PickNextAt(count)] without
    candidates, [count >= 0], returns no peers with [ok = true] and
    leaves that value [finished]; no later call of either method on
    that value clears [finished], and [sendUpdate] of that value does
    nothing. *)
Lemma PickNextAt_no_candidates_value (l : Level) (count : Z) :
  Level_inv l -> nodes l = [] -> 0 <= count ->
  exists l',
    PickNextAt l count = Ok (l', ([], true)) /\
    finished l' = true /\
    forall (cs : list level_call) (l'' : Level),
      level_run l' cs = Ok l'' ->
      finished l'' = true /\ nodes l'' = [] /\
      forall (h : Handel) (c : Z), sendUpdate h l'' c = Ok h.
Proof.
  intros Hinv Hnil Hcount.
  assert (Hs : 0 <= sent l <= maxInt) by (destruct Hinv as (_ & _ & _ & Hs & _); exact Hs).
  eexists. split; [apply PickNextAt_empty; assumption |]. split; [reflexivity |].
  assert (Hkeep : forall cs l1 l2,
            Level_inv l1 -> nodes l1 = [] -> finished l1 = true ->
            level_run l1 cs = Ok l2 ->
            finished l2 = true /\ nodes l2 = []).
  { induction cs as [| c cs IH]; intros l1 l2 Hi1 Hn1 Hf1 Hrun.
    - injection Hrun as <-. split; assumption.
    - cbn [level_run] in Hrun. apply bind_Ok_inv in Hrun as (l1' & Hstep & Hrest).
      assert (Hl1' : Level_inv l1' /\ nodes l1' = [] /\ finished l1' = true).
      { destruct c as [cnt | sg]; cbn [level_step] in Hstep;
          apply bind_Ok_inv in Hstep as ([la ra] & Hcall & Hret);
          injection Hret as <-.
        - assert (0 <= cnt).
          { unfold PickNextAt in Hcall. rewrite Hn1 in Hcall.
            change (len []) with 0 in Hcall.
            destruct (Z.ltb_spec (Z.min cnt 0) 0); [discriminate | lia]. }
          pose proof Hi1 as (_ & _ & _ & Hs1 & _).
          split; [| rewrite PickNextAt_empty in Hcall by assumption;
                    injection Hcall as <- _; split; [assumption | reflexivity]].
          eapply PickNextAt_inv; [exact Hi1 | | exact Hcall].
          rewrite Hn1. change (len []) with 0. lia.
        - split; [eapply updateBestSig_inv; eassumption |].
          unfold updateBestSig in Hcall. destruct sg as [m |]; [| discriminate].
          rewrite Hn1 in Hcall. change (len []) with 0 in Hcall.
          destruct (Z.gtb_spec (Cardinality m) 0); [discriminate |].
          pose proof Hi1 as (_ & _ & _ & _ & Hb1 & _).
          destruct (Z.geb_spec (currentBestSize l1) (Cardinality m)); [| lia].
          injection Hcall as <- _. split; assumption. }
      destruct Hl1' as (Hi & Hn & Hf). eapply IH; eassumption. }
  intros cs l'' Hrun.
  apply Hkeep in Hrun as [Hf Hn].
  - split; [exact Hf |]. split; [exact Hn |].
    intros h c. unfold sendUpdate. rewrite Hf. rewrite orb_true_r. reflexivity.
  - destruct Hinv as (Hlen & Hp0 & Hp & _ & Hbest & _).
    unfold Level_inv. simpl. rewrite Hnil in *. change (len []) with 0 in *.
    repeat split; try lia. exact Hp.
  - exact Hnil.
  - reflexivity.
Qed.

End LevelClaims.

(** Closing a goal about concrete data by evaluating it. *)
Ltac by_evaluation :=
  vm_compute;
  first [ reflexivity | discriminate | (intros; discriminate)
        | (split; intros; discriminate) ].

Ltac Level_inv_by_evaluation :=
  unfold Level_inv, len, maxInt; cbn;
  repeat split; first [ lia | discriminate | (left; lia) | (right; split; reflexivity) ].

Lemma updateBestSig_strictly_monotone_witness :
  let l := Demo.level_of 2 [2; 3] in
  let m := Demo.ms_of [true; true; false] in
  Cardinality m <= len (nodes l) /\ currentBestSize l < Cardinality m /\
  exists l' r,
    updateBestSig l (Some m) = Ok (l', r) /\
    currentBestSize l' = Cardinality m /\ sent l' = 0 /\ finished l' = false /\
    (r = true <-> currentBestSize l' = len (nodes l')) /\
    id l' = id l /\ nodes l' = nodes l /\ started l' = started l /\
    completed l' = completed l /\ pos l' = pos l.
Proof.
  intros l m.
  assert (Hfit : Cardinality m <= len (nodes l)) by by_evaluation.
  assert (Hlt : currentBestSize l < Cardinality m) by by_evaluation.
  split; [exact Hfit |]. split; [exact Hlt |].
  exact (proj1 (proj2 (updateBestSig_strictly_monotone l m)) Hfit Hlt).
Defined.

Lemma PickNextAt_round_robin_witness :
  let l := Demo.level_of 2 [2; 3; 4] in
  Level_inv l /\ 0 < len (nodes l) /\ 0 <= 2 /\
  sent l + Z.min 2 (len (nodes l)) <= maxInt /\
  exists l' res,
    PickNextAt l 2 = Ok (l', (res, true)) /\
    len res = Z.min 2 (len (nodes l)) /\
    pos l' = (pos l + len res) mod len (nodes l) /\
    sent l' = sent l + len res.
Proof.
  intros l.
  assert (Hinv : Level_inv l) by Level_inv_by_evaluation.
  assert (Hne : 0 < len (nodes l)) by by_evaluation.
  assert (Hcount : 0 <= 2) by lia.
  assert (Hsent : sent l + Z.min 2 (len (nodes l)) <= maxInt) by by_evaluation.
  split; [exact Hinv |]. split; [exact Hne |]. split; [exact Hcount |].
  split; [exact Hsent |].
  destruct (proj1 (PickNextAt_round_robin l 2 Hinv Hne Hcount Hsent))
    as (l' & res & Hrun & Hlen & _ & Hpos & Hs & _).
  exists l', res. repeat split; assumption.
Defined.

(** ** The aggregator: what each function leaves alone *)

Section Frames.
Context `{Collaborators}.

Lemma same_but_sends_refl (h : Handel) : same_but_sends h h.
Proof. split; reflexivity. Qed.

Lemma same_but_sends_trans (h1 h2 h3 : Handel) :
  same_but_sends h1 h2 -> same_but_sends h2 h3 -> same_but_sends h1 h3.
Proof. intros [Hc1 Hl1] [Hc2 Hl2]. split; congruence. Qed.

Lemma logf_same (h : Handel) (e : logEntry) : same_but_sends h (logf h e).
Proof. split; reflexivity. Qed.

Lemma net_Send_same (h : Handel) (ids : list Identity) (p : Packet) :
  same_but_sends h (net_Send h ids p).
Proof. split; reflexivity. Qed.

Lemma sendTo_same (h : Handel) (lvl : Z) (m : MultiSignature) (ids : list Identity) :
  same_but_sends h (sendTo h lvl m ids).
Proof.
  unfold sendTo. destruct (MarshalBinary m) as [buff [err |]];
    [apply logf_same | apply net_Send_same].
Qed.

Lemma sendUpdate_same (h : Handel) (l : Level) (count : Z) (h' : Handel) :
  sendUpdate h l count = Ok h' -> same_but_sends h h'.
Proof.
  unfold sendUpdate. destruct (negb (started l) || finished l).
  - intros [= <-]. apply same_but_sends_refl.
  - destruct (Combined (store h) _) as [sp |]; [| discriminate].
    intros Hrun. apply bind_Ok_inv in Hrun as ([l' [newNodes ok]] & _ & Hret).
    injection Hret as <-.
    eapply same_but_sends_trans; [apply logf_same | apply sendTo_same].
Qed.

Lemma sendBestUpTo_same (h : Handel) (lvl : Z) (h' : Handel) :
  sendBestUpTo h lvl = Ok h' -> same_but_sends h h'.
Proof.
  unfold sendBestUpTo. destruct ((lvl <? 0) || (lvl >=? len (levels h))); [discriminate |].
  intros Hrun. apply bind_Ok_inv in Hrun as ([levelToSend err] & _ & Hrest).
  destruct err as [e |]; [discriminate |].
  destruct (index (levels h) _) as [l |]; [| discriminate].
  eapply sendUpdate_same. exact Hrest.
Qed.

Lemma periodicUpdate_loop_same (lvls : list Level) :
  forall h h', periodicUpdate_loop h lvls = Ok h' -> same_but_sends h h'.
Proof.
  induction lvls as [| lvl rest IH]; intros h h' Hrun.
  - injection Hrun as <-. apply same_but_sends_refl.
  - cbn [periodicUpdate_loop] in Hrun. apply bind_Ok_inv in Hrun as (h1 & Hone & Hrest).
    eapply same_but_sends_trans; [eapply sendUpdate_same; exact Hone | eapply IH; exact Hrest].
Qed.

Lemma periodicUpdate_same (h h' : Handel) :
  periodicUpdate h = Ok h' -> same_but_sends h h'.
Proof. apply periodicUpdate_loop_same. Qed.

Lemma startNextLevel_core (h h' : Handel) :
  startNextLevel h = Ok h' -> core h' = core h.
Proof.
  unfold startNextLevel. destruct (currLevel h >=? len (levels h)).
  - intros [= <-]. reflexivity.
  - intros Hrun. apply bind_Ok_inv in Hrun as (h1 & Hsend & Hret).
    injection Hret as <-. apply sendBestUpTo_same in Hsend as [Hcore _].
    exact Hcore.
Qed.

Lemma checkCompletedLevel_core (h : Handel) (s : sigPair) (h' : Handel) :
  checkCompletedLevel h s = Ok h' -> core h' = core h.
Proof.
  unfold checkCompletedLevel. destruct (index (levels h) _) as [lvl |]; [| discriminate].
  destruct (completed lvl); [intros [= <-]; reflexivity |].
  destruct (Best (store h) (level s)) as [m ok].
  destruct (negb ok); [discriminate |].
  intros Hrun. apply bind_Ok_inv in Hrun as ([lvl' r] & _ & Hrest).
  destruct (negb r); [injection Hrest as <-; reflexivity |].
  destruct (level s =? currLevel h); [apply startNextLevel_core; exact Hrest |].
  destruct (id lvl' <? _); [| injection Hrest as <-; reflexivity].
  apply sendBestUpTo_same in Hrest as [Hcore _]. exact Hcore.
Qed.

End Frames.

(** ** The aggregator: output and runs *)

Section Runs.
Context `{Collaborators}.

Lemma core_fields (h h' : Handel) :
  core h' = core h ->
  levels h' = levels h /\ threshold h' = threshold h /\ done h' = done h /\
  out h' = out h /\ best h' = best h /\ incoming h' = incoming h /\
  store h' = store h /\ out_closed h' = out_closed h.
Proof. unfold core. intros [= ]. repeat split; assumption. Qed.

Lemma newBest_effect (h : Handel) (m : MultiSignature) (h' : Handel) :
  newBest h m = Ok h' ->
  h' = h \/
  (done h = false /\ out h' = out h ++ [m] /\ best h' = Some m /\
   levels h' = levels h /\ threshold h' = threshold h /\ done h' = done h /\
   incoming h' = incoming h).
Proof.
  unfold newBest, set_best_and_send. destruct (done h) eqn:Hdone.
  - intros [= <-]. left. reflexivity.
  - destruct (out_closed h); [discriminate |]. intros [= <-]. right.
    simpl. repeat split; reflexivity.
Qed.

(** [checkFinalSignature] leaves the aggregator as it is, or sends the
    full signature out once: then that signature reaches the threshold
    and beats the previous best, if there is one. *)
Lemma checkFinalSignature_effect (h : Handel) (s : sigPair) (h' : Handel) :
  checkFinalSignature h s = Ok h' ->
  h' = h \/
  exists m, FullSignature (store h) = Some m /\ emitted h m h'.
Proof.
  unfold checkFinalSignature.
  destruct (FullSignature (store h)) as [m |]; [| discriminate].
  destruct (Z.ltb_spec (Cardinality m) (threshold h)) as [Hlow | Hthr].
  { intros [= <-]. left. reflexivity. }
  destruct (best h) as [b |] eqn:Hbest.
  - cbv zeta. destruct (Z.gtb_spec (Cardinality m) (Cardinality b)) as [Hgt | Hle].
    + intros Hrun. apply newBest_effect in Hrun as [-> | Heff]; [left; reflexivity |].
      right. exists m. split; [reflexivity |]. unfold emitted. rewrite Hbest.
      destruct Heff as (Hd & Ho & Hb & Hl & Ht & Hd' & Hi).
      repeat split; first [assumption | lia].
    + intros [= <-]. left. reflexivity.
  - intros Hrun. apply newBest_effect in Hrun as [-> | Heff]; [left; reflexivity |].
    right. exists m. split; [reflexivity |]. unfold emitted. rewrite Hbest.
    destruct Heff as (Hd & Ho & Hb & Hl & Ht & Hd' & Hi).
    repeat split; assumption.
Qed.

(** What one event can do to the levels, the threshold, the stop flag
    and the output. *)
Lemma step_effects (h : Handel) (e : event) (h' : Handel) :
  step h e = Ok h' ->
  levels h' = levels h /\ threshold h' = threshold h /\
  (done h = true -> done h' = true /\ incoming h' = incoming h) /\
  ((out h' = out h /\ best h' = best h) \/ exists m, emitted h m h').
Proof.
  destruct e as [| | p | st' | v st' |]; cbn [step].
  - intros Hrun. apply startNextLevel_core, core_fields in Hrun.
    destruct Hrun as (Hl & Ht & Hd & Ho & Hb & Hi & _).
    repeat split; try assumption; try congruence. left. split; assumption.
  - intros Hrun. apply periodicUpdate_same in Hrun as [Hc _].
    apply core_fields in Hc. destruct Hc as (Hl & Ht & Hd & Ho & Hb & Hi & _).
    repeat split; try assumption; try congruence. left. split; assumption.
  - unfold NewPacket. destruct (done h) eqn:Hdone.
    + intros [= <-]. repeat split; try reflexivity; try assumption.
      left. split; reflexivity.
    + destruct (parsePacket h p) as [[m |] [err |]]; try discriminate;
        intros [= <-]; (repeat split; try reflexivity; try discriminate);
        left; split; reflexivity.
  - intros [= <-]. simpl. repeat split; try reflexivity; try assumption.
    left. split; reflexivity.
  - unfold onVerified, actors. cbn [run_actors]. intros Hrun.
    apply bind_Ok_inv in Hrun as (h3 & Hccl & Hrun).
    apply bind_Ok_inv in Hrun as (h4 & Hcfs & Hret). injection Hret as <-.
    apply checkCompletedLevel_core, core_fields in Hccl. simpl in Hccl.
    destruct Hccl as (Hl & Ht & Hd & Ho & Hb & Hi & _).
    apply checkFinalSignature_effect in Hcfs as [-> | (m & _ & Hem)].
    + repeat split; try assumption; try congruence. left. split; assumption.
    + destruct Hem as (Hd3 & Hthr & Hbeat & Ho4 & Hb4 & Hl4 & Ht4 & Hd4 & Hi4).
      repeat split; try congruence.
      right. exists m. unfold emitted. rewrite <- Hb, <- Ht, <- Ho, <- Hd, <- Hl, <- Hi.
      repeat split; assumption.
  - unfold Stop. destruct (out_closed h); [discriminate |]. intros [= <-].
    simpl. repeat split; try reflexivity. left. split; reflexivity.
Qed.

(** No event writes to [levels] or to [threshold]. *)
Lemma run_levels (es : list event) :
  forall h h', run h es = Ok h' ->
    levels h' = levels h /\ threshold h' = threshold h.
Proof.
  induction es as [| e es IH]; intros h h' Hrun.
  - injection Hrun as <-. split; reflexivity.
  - cbn [run] in Hrun. apply bind_Ok_inv in Hrun as (h1 & Hstep & Hrest).
    apply step_effects in Hstep as (Hl & Ht & _). apply IH in Hrest as [Hl' Ht'].
    split; congruence.
Qed.

(** Once [done] is set, no event adds to the output or to the
    verification queue. *)
Lemma run_done (es : list event) :
  forall h h', done h = true -> run h es = Ok h' ->
    done h' = true /\ out h' = out h /\ incoming h' = incoming h.
Proof.
  induction es as [| e es IH]; intros h h' Hdone Hrun.
  - injection Hrun as <-. repeat split; [exact Hdone].
  - cbn [run] in Hrun. apply bind_Ok_inv in Hrun as (h1 & Hstep & Hrest).
    apply step_effects in Hstep as (_ & _ & Hd & Hout).
    destruct (Hd Hdone) as [Hd1 Hi1].
    apply IH in Hrest as (Hd' & Ho' & Hi'); [| exact Hd1].
    repeat split; [exact Hd' | | congruence].
    destruct Hout as [[Ho _] | (m & Hem)]; [congruence |].
    destruct Hem as (Hnd & _). congruence.
Qed.

End Runs.

Lemma StronglySorted_snoc (xs : list Z) (b c : Z) :
  StronglySorted Z.lt (xs ++ [b]) -> b < c ->
  StronglySorted Z.lt ((xs ++ [b]) ++ [c]).
Proof.
  intros Hsorted Hbc. induction xs as [| x xs IH].
  - simpl. constructor; [| constructor; [exact Hbc | constructor]].
    constructor; constructor.
  - simpl in *. apply StronglySorted_inv in Hsorted as [Hrest Hall].
    constructor; [apply IH; exact Hrest |].
    apply Forall_app. split; [exact Hall |].
    constructor; [| constructor].
    apply Forall_app in Hall as [_ Hb]. apply Forall_inv in Hb. lia.
Qed.

Section OutputClaims.
Context `{Collaborators}.

Lemma emitted_emissions_ok (h : Handel) (m : MultiSignature) (h' : Handel) :
  emissions_ok h -> emitted h m h' -> emissions_ok h'.
Proof.
  intros (Hall & Hsorted & Hlast) (_ & Hthr & Hbeat & Hout & Hbest & _ & Ht & _).
  unfold emissions_ok. rewrite Hout, Hbest, Ht. split; [| split].
  - apply Forall_app. split; [exact Hall |]. constructor; [exact Hthr | constructor].
  - destruct (best h) as [b |].
    + apply last_Some in Hlast as [pre Hpre]. rewrite Hpre in *.
      rewrite !map_app in *. simpl in *.
      apply StronglySorted_snoc; assumption.
    + rewrite Hlast. simpl. constructor; constructor.
  - apply last_snoc.
Qed.

Lemma step_emissions_ok (h : Handel) (e : event) (h' : Handel) :
  emissions_ok h -> step h e = Ok h' -> emissions_ok h'.
Proof.
  intros Hok Hstep.
  apply step_effects in Hstep as (_ & Ht & _ & [[Hout Hbest] | (m & Hem)]).
  - unfold emissions_ok in *. rewrite Hout, Hbest, Ht. exact Hok.
  - eapply emitted_emissions_ok; eassumption.
Qed.

Lemma run_emissions_ok (es : list event) :
  forall h h', emissions_ok h -> run h es = Ok h' -> emissions_ok h'.
Proof.
  induction es as [| e es IH]; intros h h' Hok Hrun.
  - injection Hrun as <-. exact Hok.
  - cbn [run] in Hrun. apply bind_Ok_inv in Hrun as (h1 & Hstep & Hrest).
    eapply IH; [eapply step_emissions_ok; eassumption | exact Hrest].
Qed.

(** The state [NewHandel] returns has sent nothing out. *)
Lemma NewHandel_initial (size : Z) (me : Identity) (cc thr : Z)
    (pick : Z -> Z -> list Identity * bool) (st : signatureStore) (h : Handel) :
  NewHandel size me cc thr pick st = Ok h ->
  best h = None /\ out h = [] /\ done h = false /\ out_closed h = false /\
  threshold h = thr /\ currLevel h = 0 /\
  createLevels size pick = Ok (levels h).
Proof.
  unfold NewHandel. intros Hrun. apply bind_Ok_inv in Hrun as (lvls & Hlv & Hret).
  injection Hret as <-. simpl. repeat split; try reflexivity. exact Hlv.
Qed.

(** C1.  Final output is monotone.  A call of [checkFinalSignature]
    sends at most one value out, the full signature of the store, and
    only when its cardinality reaches [threshold] and either there is
    no best yet or it is strictly larger than the best.  So in every run
    of an aggregator that starts, as [NewHandel] leaves it, without a
    best and with nothing sent, every value sent on the output channel
    has cardinality at least [threshold] and strictly larger than all
    values sent before it. *)
Theorem FinalSignatures_strictly_increasing (h : Handel) :
  (forall (s : sigPair) (h1 : Handel),
     checkFinalSignature h s = Ok h1 ->
     (out h1 = out h /\ best h1 = best h) \/
     exists m,
       FullSignature (store h) = Some m /\
       out h1 = out h ++ [m] /\ best h1 = Some m /\
       threshold h <= Cardinality m /\
       (best h = None \/ exists b, best h = Some b /\ Cardinality b < Cardinality m)) /\
  (best h = None -> out h = [] ->
   forall (es : list event) (h' : Handel),
     run h es = Ok h' ->
     Forall (fun m => threshold h <= Cardinality m) (out h') /\
     StronglySorted Z.lt (map Cardinality (out h'))).
Proof.
  split.
  - intros s h1 Hrun.
    apply checkFinalSignature_effect in Hrun as [-> | (m & Hfull & Hem)].
    + left. split; reflexivity.
    + right. exists m. destruct Hem as (_ & Hthr & Hbeat & Hout & Hbest & _).
      repeat split; try assumption.
      destruct (best h) as [b |]; [right; exists b; split; [reflexivity | exact Hbeat] |].
      left. reflexivity.
  - intros Hbest Hout es h' Hrun.
    assert (Hok : emissions_ok h).
    { unfold emissions_ok. rewrite Hbest, Hout. simpl.
      split; [constructor | split; [constructor | reflexivity]]. }
    pose proof (run_emissions_ok es h h' Hok Hrun) as (Hall & Hsorted & _).
    apply run_levels in Hrun as [_ Ht]. rewrite <- Ht. split; assumption.
Qed.

End OutputClaims.

Lemma FinalSignatures_strictly_increasing_witness :
  let h := Demo.handel4 in
  let m2 := Demo.ms_of [true; true; false; false] in
  let m3 := Demo.ms_of [true; true; true; false] in
  let es := [EvVerified Demo.pair1 (Demo.store_of (Demo.ms_of [true]) m2);
             EvTick;
             EvVerified Demo.pair1 (Demo.store_of (Demo.ms_of [true]) m2);
             EvVerified Demo.pair1 (Demo.store_of (Demo.ms_of [true]) m3)] in
  best h = None /\ out h = [] /\
  exists h',
    run h es = Ok h' /\ out h' = [m2; m3] /\
    Forall (fun m => threshold h <= Cardinality m) (out h') /\
    StronglySorted Z.lt (map Cardinality (out h')).
Proof.
  intros h m2 m3 es.
  assert (Hbest : best h = None) by reflexivity.
  assert (Hout : out h = []) by reflexivity.
  split; [exact Hbest |]. split; [exact Hout |].
  destruct (run h es) as [h' | p] eqn:Hrun; [| vm_compute in Hrun; discriminate].
  exists h'. split; [reflexivity |].
  split; [vm_compute in Hrun; injection Hrun as <-; reflexivity |].
  exact (proj2 (FinalSignatures_strictly_increasing h) Hbest Hout es h' Hrun).
Defined.

Section AggregatorClaims.
Context `{Collaborators}.

Lemma createLevels_loop_fresh (pick : Z -> Z -> list Identity * bool) (size : Z) (n : nat) :
  forall (i : Z) (lvls : list Level),
    createLevels_loop pick size n i = Ok lvls -> Forall fresh lvls.
Proof.
  induction n as [| n IH]; intros i lvls Hrun.
  - injection Hrun as <-. constructor.
  - cbn [createLevels_loop] in Hrun.
    destruct (pick (int (i + 1)) (int (size + 1))) as [ns ok].
    apply bind_Ok_inv in Hrun as (l & Hnew & Hrun).
    apply bind_Ok_inv in Hrun as (rest & Hrest & Hret). injection Hret as <-.
    constructor; [| eapply IH; exact Hrest].
    unfold NewLevel in Hnew. destruct (int (i + 1) <=? 0); [discriminate |].
    injection Hnew as <-. repeat split.
Qed.

Lemma createLevels_fresh (size : Z) (pick : Z -> Z -> list Identity * bool)
    (lvls : list Level) :
  createLevels size pick = Ok lvls -> Forall fresh lvls.
Proof.
  unfold createLevels. destruct (log2 size <? 0); [discriminate |].
  apply createLevels_loop_fresh.
Qed.

(** C9.  The levels stored in the aggregator are never written:
    [periodicUpdate] and [checkCompletedLevel] work on copies, so after
    either of them, and after any run of ticks, packets and verified
    signatures, [levels] is what it was, field by field.  In an
    aggregator built by [NewHandel] every stored level therefore stays
    as [NewLevel] made it: the cursor at zero, [sent] zero, not
    [finished], never [completed]. *)
Theorem levels_never_mutated (h : Handel) :
  (forall h', periodicUpdate h = Ok h' -> levels h' = levels h) /\
  (forall s h', checkCompletedLevel h s = Ok h' -> levels h' = levels h) /\
  (forall es h', run h es = Ok h' -> levels h' = levels h) /\
  (forall size me cc thr pick st,
     NewHandel size me cc thr pick st = Ok h ->
     forall es h', run h es = Ok h' ->
       Forall (fun l => completed l = false /\ finished l = false /\
                        pos l = 0 /\ sent l = 0 /\ currentBestSize l = 0)
              (levels h')).
Proof.
  split; [| split; [| split]].
  - intros h' Hrun. apply periodicUpdate_same in Hrun as [Hc _].
    apply core_fields in Hc. tauto.
  - intros s h' Hrun. apply checkCompletedLevel_core, core_fields in Hrun. tauto.
  - intros es h' Hrun. apply run_levels in Hrun. tauto.
  - intros size me cc thr pick st Hnew es h' Hrun.
    apply run_levels in Hrun as [-> _].
    apply NewHandel_initial in Hnew as (_ & _ & _ & _ & _ & _ & Hlv).
    apply createLevels_fresh in Hlv. exact Hlv.
Qed.

(** C5, as the code has it.  [Stop] on an aggregator whose output
    channel is open succeeds: it sets [done], closes the channel and
    stops the ticker and the verifier.  After it every packet is
    dropped and nothing is ever sent on the output channel or pushed
    to the verifier again.  A second [Stop] is not benign: it panics
    on closing the closed channel. *)
Theorem Stop_once_then_silent (h : Handel) :
  out_closed h = false ->
  exists h1,
    Stop h = Ok h1 /\
    done h1 = true /\ out_closed h1 = true /\
    ticker_stopped h1 = true /\ proc_stopped h1 = true /\
    out h1 = out h /\
    (forall p, NewPacket h1 p = Ok h1) /\
    (forall es h2, run h1 es = Ok h2 ->
       out h2 = out h1 /\ incoming h2 = incoming h1) /\
    Stop h1 = Panic RuntimeCloseOfClosedChannel.
Proof.
  intros Hopen. unfold Stop at 1. rewrite Hopen. eexists. split; [reflexivity |].
  simpl. do 5 (split; [reflexivity |]). split; [intros p; reflexivity |].
  split; [| reflexivity].
  intros es h2 Hrun. apply run_done in Hrun; [tauto | reflexivity].
Qed.

(** C7.  [startNextLevel] past the last level only writes the
    "protocol finished" log line: nothing is sent and no field changes.
    Below the last level it calls [sendBestUpTo(currLevel)] and, when
    that returns, [currLevel] is one more than before and the only other
    effect is what [sendBestUpTo] sent.  [currLevel] is a byte and there
    are at most 255 levels. *)
Theorem startNextLevel_advances (h : Handel) :
  0 <= currLevel h < 256 -> len (levels h) <= 255 ->
  (len (levels h) <= currLevel h ->
   startNextLevel h = Ok (logf h (LogProtocolFinished (currLevel h))) /\
   sends (logf h (LogProtocolFinished (currLevel h))) = sends h /\
   same_but_sends h (logf h (LogProtocolFinished (currLevel h)))) /\
  (currLevel h < len (levels h) ->
   (forall h1, sendBestUpTo h (currLevel h) = Ok h1 ->
      exists h2,
        startNextLevel h = Ok h2 /\
        currLevel h2 = currLevel h + 1 /\
        sends h2 = sends h1 /\ core h2 = core h) /\
   (forall p, sendBestUpTo h (currLevel h) = Panic p ->
      startNextLevel h = Panic p)).
Proof.
  intros Hbyte Hlevels. unfold startNextLevel. split.
  - intros Hpast. destruct (Z.geb_spec (currLevel h) (len (levels h))); [| lia].
    split; [reflexivity |]. split; [reflexivity | apply logf_same].
  - intros Hbelow. destruct (Z.geb_spec (currLevel h) (len (levels h))); [lia |].
    split.
    + intros h1 Hsend. rewrite Hsend. simpl. eexists. split; [reflexivity |].
      apply sendBestUpTo_same in Hsend as [Hcore Hlvl]. simpl.
      rewrite Hlvl. split; [apply byte_small; lia |]. split; [reflexivity |].
      exact Hcore.
    + intros p Hsend. rewrite Hsend. reflexivity.
Qed.

End AggregatorClaims.

Lemma startNextLevel_advances_witness :
  let h := Demo.handel_of [Demo.level_of 1 [1]; Demo.level_of 2 [2; 3]]
             (Demo.store_all (Demo.ms_of [true])) in
  0 <= currLevel h < 256 /\ len (levels h) <= 255 /\
  currLevel h < len (levels h) /\
  exists h1 h2,
    sendBestUpTo h (currLevel h) = Ok h1 /\
    startNextLevel h = Ok h2 /\
    currLevel h2 = currLevel h + 1 /\ sends h2 = sends h1 /\ core h2 = core h.
Proof.
  intros h.
  assert (Hbyte : 0 <= currLevel h < 256) by (vm_compute; split; [intros | ]; congruence).
  assert (Hlevels : len (levels h) <= 255) by by_evaluation.
  assert (Hbelow : currLevel h < len (levels h)) by by_evaluation.
  split; [exact Hbyte |]. split; [exact Hlevels |]. split; [exact Hbelow |].
  destruct (sendBestUpTo h (currLevel h)) as [h1 | p] eqn:Hsend;
    [| vm_compute in Hsend; discriminate].
  destruct (proj1 (proj2 (startNextLevel_advances h Hbyte Hlevels) Hbelow) h1 Hsend)
    as (h2 & Hrun & Hlvl & Hsends & Hcore).
  exists h1, h2. repeat split; assumption.
Defined.

Lemma levels_never_mutated_witness :
  let m := Demo.ms_of [true] in
  let h := Demo.handel_of [Demo.level_of 1 [1]; Demo.level_of 2 [2; 3]]
             (Demo.store_all m) in
  let es := [EvTick; EvVerified Demo.pair1 (Demo.store_all m); EvTick] in
  NewHandel 4 0 10 2 Demo.pick4 (Demo.store_all m) = Ok h /\
  exists h',
    run h es = Ok h' /\ levels h' = levels h /\
    Forall (fun l => completed l = false /\ finished l = false /\
                     pos l = 0 /\ sent l = 0 /\ currentBestSize l = 0)
           (levels h') /\
    map fst (sends h') = [[1]; [2]; [1]; [2]].
Proof.
  intros m h es.
  assert (Hnew : NewHandel 4 0 10 2 Demo.pick4 (Demo.store_all m) = Ok h)
    by reflexivity.
  split; [exact Hnew |].
  destruct (run h es) as [h' | p] eqn:Hrun; [| vm_compute in Hrun; discriminate].
  exists h'. split; [reflexivity |].
  split; [exact (proj1 (proj2 (proj2 (levels_never_mutated h))) es h' Hrun) |].
  split; [exact (proj2 (proj2 (proj2 (levels_never_mutated h)))
                   4 0 10 2 Demo.pick4 (Demo.store_all m) Hnew es h' Hrun) |].
  vm_compute in Hrun. injection Hrun as <-. reflexivity.
Defined.

(** C5, the claim as written fails: the second [Stop] panics. *)
Lemma Stop_twice_panics :
  exists h1,
    Stop Demo.handel4 = Ok h1 /\ Stop h1 = Panic RuntimeCloseOfClosedChannel.
Proof. eexists. split; reflexivity. Qed.

Lemma Stop_once_then_silent_witness :
  let h := Demo.handel4 in
  out_closed h = false /\
  exists h1,
    Stop h = Ok h1 /\ done h1 = true /\
    (forall p, NewPacket h1 p = Ok h1) /\
    Stop h1 = Panic RuntimeCloseOfClosedChannel.
Proof.
  intros h.
  assert (Hopen : out_closed h = false) by reflexivity.
  split; [exact Hopen |].
  destruct (Stop_once_then_silent h Hopen)
    as (h1 & Hstop & Hdone & _ & _ & _ & _ & Hdrop & _ & Hagain).
  exists h1. repeat split; assumption.
Defined.

(** ** Dissemination: a missing combined signature, the next level *)

Section Dissemination.
Context `{Collaborators}.

Lemma periodicUpdate_loop_nil_Combined (lvls : list Level) :
  forall h : Handel,
    (exists l, In l lvls /\ started l = true /\ finished l = false /\
               Combined (store h) (byte (byte (id l) - 1)) = None) ->
    exists p, periodicUpdate_loop h lvls = Panic p.
Proof.
  induction lvls as [| l0 rest IH]; intros h (l & Hin & Hst & Hfin & Hnil).
  - destruct Hin.
  - cbn [periodicUpdate_loop].
    destruct (sendUpdate h l0 1) as [h1 | p] eqn:Hone; [| exists p; reflexivity].
    simpl. destruct Hin as [-> | Hin].
    + unfold sendUpdate in Hone. rewrite Hst, Hfin, Hnil in Hone. discriminate.
    + apply IH. exists l. apply sendUpdate_same in Hone as [Hc _].
      apply core_fields in Hc. destruct Hc as (_ & _ & _ & _ & _ & _ & Hstore & _).
      rewrite Hstore. repeat split; assumption.
Qed.

(** C8, as the code has it.  [sendUpdate] skips a level that is not
    started or is finished without asking the store.  For a level that
    is started and not finished, a nil [Combined(level-1)] is not "not
    ready": [sendUpdate] panics ("THIS SHOULD NOT HAPPEN AT ALL"), and a
    tick that meets such a level halts the aggregator. *)
Theorem sendUpdate_nil_Combined_panics (h : Handel) :
  (forall l count,
     started l = false \/ finished l = true -> sendUpdate h l count = Ok h) /\
  (forall l count,
     started l = true -> finished l = false ->
     Combined (store h) (byte (byte (id l) - 1)) = None ->
     sendUpdate h l count = Panic PanicShouldNotHappen) /\
  ((exists l, In l (levels h) /\ started l = true /\ finished l = false /\
              Combined (store h) (byte (byte (id l) - 1)) = None) ->
   exists p, periodicUpdate h = Panic p).
Proof.
  split; [| split].
  - intros l count [Hst | Hfin]; unfold sendUpdate.
    + rewrite Hst. reflexivity.
    + rewrite Hfin, orb_true_r. reflexivity.
  - intros l count Hst Hfin Hnil. unfold sendUpdate.
    rewrite Hst, Hfin, Hnil. reflexivity.
  - apply periodicUpdate_loop_nil_Combined.
Qed.

(** [NewPacket] on a running aggregator: a packet that passes the two
    checks of [parsePacket] and unmarshals is queued for verification. *)
Lemma NewPacket_queues (h : Handel) (p : Packet) (m : MultiSignature) :
  done h = false ->
  Origin p < int32 (reg_Size h) ->
  1 <= PacketLevel p <= log2 (reg_Size h) ->
  Unmarshal (MultiSig p) = (m, None) ->
  NewPacket h p =
    Ok (proc_push (logf h (LogReceivedPacket (Origin p) (PacketLevel p)))
          {| origin := Origin p; level := PacketLevel p; ms := Some m |}).
Proof.
  intros Hdone Horigin Hlevel Hum. unfold NewPacket, parsePacket. rewrite Hdone.
  destruct (Z.geb_spec (Origin p) (int32 (reg_Size h))); [lia |].
  destruct (Z.ltb_spec (PacketLevel p) 1); [lia |].
  destruct (Z.gtb_spec (PacketLevel p) (log2 (reg_Size h))); [lia |].
  simpl. rewrite Hum. reflexivity.
Qed.

(** What [parsePacket] rejects: an origin at or above the registry size,
    a level outside [1, log2 N].  Nothing is queued. *)
Lemma NewPacket_rejects (h : Handel) (p : Packet) :
  done h = false ->
  int32 (reg_Size h) <= Origin p \/ PacketLevel p < 1 \/
    log2 (reg_Size h) < PacketLevel p ->
  exists e, NewPacket h p = Ok (logf h (LogInvalidPacket e)).
Proof.
  intros Hdone Hbad. unfold NewPacket, parsePacket. rewrite Hdone.
  destruct (Z.geb_spec (Origin p) (int32 (reg_Size h))); [eexists; reflexivity |].
  destruct (Z.ltb_spec (PacketLevel p) 1); [eexists; reflexivity |].
  destruct (Z.gtb_spec (PacketLevel p) (log2 (reg_Size h))); [eexists; reflexivity |].
  lia.
Qed.

Lemma findNextLevel_loop_body (lvls : list Level) (lvl l : Z) :
  findNextLevel_loop lvls lvl l =
    if lvl <=? len lvls then
      match index lvls (int (l - 1)) with
      | None => Panic RuntimeIndexOutOfRange
      | Some lv =>
          if len (nodes lv) =? 0 then findNextLevel_loop lvls lvl (int (l + 1))
          else Ok (l, None)
      end
    else Ok (0, Some ErrNoNonEmptyLevel).
Proof.
  funelim (findNextLevel_loop lvls lvl l).
  all: try clear Heqcall.
  all: repeat match goal with E : ?x = _ |- context [?x] => rewrite E end.
  all: reflexivity.
Qed.

(** The guard of the loop is fixed by [lvl]: from a level inside the
    slice the loop never leaves through its end, so the "no non-empty
    level found" error is never returned. *)
Lemma findNextLevel_loop_never_reports (lvls : list Level) (lvl : Z) :
  lvl <= len lvls ->
  forall (k : nat) (l r : Z) (e : error),
    (slots_left lvls l <= k)%nat ->
    findNextLevel_loop lvls lvl l <> Ok (r, Some e).
Proof.
  intros Hlvl. induction k as [| k IH]; intros l r e Hk;
    rewrite findNextLevel_loop_body;
    (destruct (Z.leb_spec lvl (len lvls)); [| lia]);
    destruct (index lvls (int (l - 1))) as [lv |] eqn:Hidx; try discriminate;
    (destruct (len (nodes lv) =? 0); [| discriminate]).
  - apply index_Some_range in Hidx. unfold slots_left in Hk.
    destruct (Z.leb_spec 0 (int (l - 1))); [| lia].
    destruct (Z.ltb_spec (int (l - 1)) (len lvls)); [| lia].
    simpl in Hk. lia.
  - apply IH. apply index_Some_range in Hidx.
    assert (Hn : int (int (l + 1) - 1) = int (l - 1) + 1 \/ int (int (l + 1) - 1) < 0).
    { revert Hidx. generalize (len lvls). intros n. unfold int, signed.
      change (2 ^ (64 - 1)) with 9223372036854775808.
      change (2 ^ 64) with 18446744073709551616.
      intros Hr. Z.to_euclidean_division_equations. lia. }
    unfold slots_left in *.
    destruct (Z.leb_spec 0 (int (l - 1))); [| lia].
    destruct (Z.ltb_spec (int (l - 1)) (len lvls)); [| lia].
    destruct (Z.leb_spec 0 (int (int (l + 1) - 1)));
      destruct (Z.ltb_spec (int (int (l + 1) - 1)) (len lvls)); simpl in *; lia.
Qed.

Lemma findNextLevel_never_reports (h : Handel) (lvl r : Z) (e : error) :
  lvl <= len (levels h) -> findNextLevel h lvl <> Ok (r, Some e).
Proof.
  intros Hlvl. unfold findNextLevel.
  eapply findNextLevel_loop_never_reports; [exact Hlvl | apply Nat.le_refl].
Qed.

(** With only empty levels from index [l - 1] on, the loop runs off the
    end of the slice. *)
Lemma findNextLevel_loop_runs_off (lvls : list Level) (lvl : Z) :
  lvl <= len lvls -> len lvls < maxInt ->
  forall (k : nat) (l : Z),
    Z.of_nat k = len lvls + 1 - l -> 1 <= l ->
    (forall i lv, l - 1 <= i -> index lvls i = Some lv -> nodes lv = []) ->
    findNextLevel_loop lvls lvl l = Panic RuntimeIndexOutOfRange.
Proof.
  intros Hlvl Hlen. pose proof minInt_neg as Hmin.
  induction k as [| k IH]; intros l Hk Hl Hempty;
    rewrite findNextLevel_loop_body;
    (destruct (Z.leb_spec lvl (len lvls)); [| lia]);
    rewrite (int_small (l - 1)) by lia.
  - rewrite index_out_of_range by lia. reflexivity.
  - destruct (index_in_range lvls (l - 1)) as [lv Hlv]; [lia |].
    rewrite Hlv. rewrite (Hempty (l - 1) lv) by (assumption || lia).
    change (len [] =? 0) with true. cbv iota.
    rewrite int_small by lia. apply IH; try lia.
    intros i lv' Hi. apply Hempty. lia.
Qed.

(** [sendBestUpTo] from a level above which every level is empty: the
    panic is Go's index check, not the error of [findNextLevel]. *)
Lemma sendBestUpTo_no_higher_level (h : Handel) (lvl : Z) :
  0 <= lvl < len (levels h) -> len (levels h) < maxInt ->
  (forall i l, lvl <= i -> index (levels h) i = Some l -> nodes l = []) ->
  sendBestUpTo h lvl = Panic RuntimeIndexOutOfRange.
Proof.
  intros Hlvl Hlen Hempty. unfold sendBestUpTo, findNextLevel.
  destruct (Z.ltb_spec lvl 0); [lia |].
  destruct (Z.geb_spec lvl (len (levels h))); [lia |]. simpl.
  pose proof minInt_neg. rewrite int_small by lia.
  rewrite (findNextLevel_loop_runs_off (levels h) lvl)
    with (k := Z.to_nat (len (levels h) - lvl)); try lia; [reflexivity |].
  intros i l Hi. apply Hempty. lia.
Qed.

(** With a non-empty level at [l'] and only empty ones before it, the
    loop returns [l']. *)
Lemma findNextLevel_loop_finds (lvls : list Level) (lvl : Z) :
  lvl <= len lvls -> len lvls < maxInt ->
  forall (k : nat) (l l' : Z) (lv' : Level),
    Z.of_nat k = l' - l -> 1 <= l -> l' <= len lvls ->
    (forall i lv, l - 1 <= i < l' - 1 -> index lvls i = Some lv -> nodes lv = []) ->
    index lvls (l' - 1) = Some lv' -> nodes lv' <> [] ->
    findNextLevel_loop lvls lvl l = Ok (l', None).
Proof.
  intros Hlvl Hlen. pose proof minInt_neg as Hmin.
  induction k as [| k IH]; intros l l' lv' Hk Hl Hl' Hempty Hfound Hne;
    rewrite findNextLevel_loop_body;
    (destruct (Z.leb_spec lvl (len lvls)); [| lia]);
    rewrite (int_small (l - 1)) by lia.
  - replace l with l' by lia. rewrite Hfound.
    destruct (Z.eqb_spec (len (nodes lv')) 0) as [Hz | _]; [| reflexivity].
    apply len_nil_inv in Hz. contradiction.
  - destruct (index_in_range lvls (l - 1)) as [lv Hlv]; [lia |].
    rewrite Hlv. rewrite (Hempty (l - 1) lv) by (assumption || lia).
    change (len [] =? 0) with true. cbv iota.
    rewrite int_small by lia. apply (IH (l + 1) l' lv'); try lia; try assumption.
    intros i lv0 Hi. apply Hempty. lia.
Qed.

(** [sendBestUpTo(lvl)] with a non-empty level above [lvl]: it is
    [sendUpdate] of the lowest such level, with [CandidateCount]. *)
Lemma sendBestUpTo_next_level (h : Handel) (lvl l' : Z) (lv' : Level) :
  0 <= lvl < len (levels h) -> len (levels h) < maxInt ->
  lvl < l' <= len (levels h) ->
  (forall i lv, lvl <= i < l' - 1 -> index (levels h) i = Some lv -> nodes lv = []) ->
  index (levels h) (l' - 1) = Some lv' -> nodes lv' <> [] ->
  sendBestUpTo h lvl = sendUpdate h lv' (CandidateCount h).
Proof.
  intros Hlvl Hlen Hl' Hempty Hfound Hne. unfold sendBestUpTo, findNextLevel.
  destruct (Z.ltb_spec lvl 0); [lia |].
  destruct (Z.geb_spec lvl (len (levels h))); [lia |]. simpl.
  pose proof minInt_neg. rewrite int_small by lia.
  rewrite (findNextLevel_loop_finds (levels h) lvl)
    with (k := Z.to_nat (l' - (lvl + 1))) (l' := l') (lv' := lv'); try lia; try assumption.
  - simpl. rewrite int_small by lia. rewrite Hfound. reflexivity.
  - intros i lv Hi. apply Hempty. lia.
Qed.

End Dissemination.

(** The aggregator of the examples is the one [NewHandel] builds. *)
Lemma handel4_is_NewHandel :
  NewHandel 4 0 10 2 Demo.pick4 Demo.store_nil = Ok Demo.handel4.
Proof. reflexivity. Qed.

(** C8, the claim as written fails: with a nil [Combined] a tick panics. *)
Lemma periodicUpdate_nil_Combined_halts :
  Combined (store Demo.handel4) 0 = None /\
  periodicUpdate Demo.handel4 = Panic PanicShouldNotHappen.
Proof. split; reflexivity. Qed.

Lemma sendUpdate_nil_Combined_panics_witness :
  let h := Demo.handel4 in
  let l := Demo.level_of 1 [1] in
  (In l (levels h) /\ started l = true /\ finished l = false /\
   Combined (store h) (byte (byte (id l) - 1)) = None) /\
  sendUpdate h l 1 = Panic PanicShouldNotHappen /\
  exists p, periodicUpdate h = Panic p.
Proof.
  intros h l.
  assert (Hin : In l (levels h)) by (left; reflexivity).
  assert (Hst : started l = true) by reflexivity.
  assert (Hfin : finished l = false) by reflexivity.
  assert (Hnil : Combined (store h) (byte (byte (id l) - 1)) = None) by reflexivity.
  split; [repeat split; assumption |].
  destruct (sendUpdate_nil_Combined_panics h) as (_ & Hone & Htick).
  split; [exact (Hone l 1 Hst Hfin Hnil) |].
  apply Htick. exists l. repeat split; assumption.
Defined.

(** C2, the code at a packet with a negative origin: [parsePacket] only
    compares [Origin] with the registry size from above, so the packet
    passes and is queued for verification. *)
Theorem NewPacket_negative_origin_queued :
  let p := {| Origin := -1; PacketLevel := 1; MultiSig := [Byte.x01] |} in
  parsePacket Demo.handel4 p = (Some (Demo.ms_of [true]), None) /\
  exists h',
    NewPacket Demo.handel4 p = Ok h' /\
    incoming h' = [{| origin := -1; level := 1; ms := Some (Demo.ms_of [true]) |}].
Proof.
  intros p. split; [reflexivity |]. eexists. split; reflexivity.
Qed.

(** C3, the code at a level with no non-empty level above it:
    [findNextLevel] indexes past the end of [levels], so the panic is
    Go's "index out of range" and not the "no non-empty level found"
    error. *)
Theorem sendBestUpTo_no_higher_level_index_panic :
  let h := Demo.handel_of [Demo.level_of 1 [1]; Demo.level_of 2 []]
             (Demo.store_all (Demo.ms_of [true])) in
  findNextLevel h 1 = Panic RuntimeIndexOutOfRange /\
  sendBestUpTo h 1 = Panic RuntimeIndexOutOfRange /\
  sendBestUpTo h 1 <> Panic (PanicError ErrNoNonEmptyLevel).
Proof.
  intros h. split; [reflexivity |]. split; [reflexivity | discriminate].
Qed.

(** * Further properties of the code *)

(** ** Levels: construction and the two methods *)

Section LevelMore.
Context `{Collaborators}.

Lemma createLevels_loop_shape (pick : Z -> Z -> list Identity * bool) (size : Z)
    (n : nat) :
  forall i : Z,
    0 <= i -> i + Z.of_nat n <= maxInt ->
    exists lvls,
      createLevels_loop pick size n i = Ok lvls /\
      len lvls = Z.of_nat n /\
      forall j, 0 <= j < Z.of_nat n ->
        index lvls j =
          Some {| id := i + j + 1;
                  nodes := fst (pick (i + j + 1) (int (size + 1)));
                  started := true; completed := false; finished := false;
                  pos := 0; sent := 0; currentBestSize := 0 |}.
Proof.
  pose proof minInt_neg as Hmin.
  induction n as [| n IH]; intros i Hi Hn.
  - exists []. split; [reflexivity |]. split; [reflexivity | intros; lia].
  - cbn [createLevels_loop]. rewrite int_small by lia.
    destruct (pick (i + 1) (int (size + 1))) as [ns ok] eqn:Hpick.
    unfold NewLevel. destruct (Z.leb_spec (i + 1) 0); [lia |]. simpl.
    destruct (IH (i + 1)) as (rest & Hrest & Hlen & Hidx); [lia | lia |].
    rewrite Hrest. simpl. eexists. split; [reflexivity |].
    split; [unfold len in *; simpl; lia |].
    intros j Hj. destruct (Z.eq_dec j 0) as [-> | Hne].
    + rewrite index_cons_0, Z.add_0_r, Hpick. reflexivity.
    + rewrite index_cons_pos by lia. rewrite Hidx by lia.
      replace (i + 1 + (j - 1) + 1) with (i + j + 1) by lia. reflexivity.
Qed.

(** X1.  [createLevels] makes one level per unit of [log2(size)]:
    level [i + 1] sits at index [i], holds the nodes the partitioner
    returns for [(i + 1, size + 1)], is started, and has a zero cursor
    and zero counters.  A negative [log2(size)] makes it panic on
    [make]. *)
Theorem createLevels_shape (size : Z) (pick : Z -> Z -> list Identity * bool) :
  (log2 size < 0 -> createLevels size pick = Panic RuntimeMakeSliceLen) /\
  (0 <= log2 size <= maxInt ->
   exists lvls,
     createLevels size pick = Ok lvls /\
     len lvls = log2 size /\
     forall i, 0 <= i < log2 size ->
       index lvls i =
         Some {| id := i + 1;
                 nodes := fst (pick (i + 1) (int (size + 1)));
                 started := true; completed := false; finished := false;
                 pos := 0; sent := 0; currentBestSize := 0 |}).
Proof.
  unfold createLevels. split.
  - intros Hneg. destruct (Z.ltb_spec (log2 size) 0); [reflexivity | lia].
  - intros Hl. destruct (Z.ltb_spec (log2 size) 0); [lia |].
    destruct (createLevels_loop_shape pick size (Z.to_nat (log2 size)) 0)
      as (lvls & Hrun & Hlen & Hidx); [lia | lia |].
    exists lvls. split; [exact Hrun |]. split; [lia |].
    intros i Hi. rewrite Hidx by lia. reflexivity.
Qed.

(** [PickNextAt] returns whenever the cursor is sound and the count is
    not negative. *)
Lemma PickNextAt_total (l : Level) (count : Z) :
  cursor_ok l -> 0 <= count ->
  exists l' res,
    PickNextAt l count = Ok (l', (res, true)) /\
    id l' = id l /\ nodes l' = nodes l /\ started l' = started l /\
    completed l' = completed l /\ currentBestSize l' = currentBestSize l /\
    cursor_ok l' /\
    len res = Z.min count (len (nodes l)) /\
    forall i, 0 <= i < len res ->
      index res i = index (nodes l) ((pos l + i) mod len (nodes l)).
Proof.
  intros [Hlen [Hpos | [Hnil Hp0]]] Hcount.
  - destruct (PickNextAt_picks l count) as (res & Hrun & Hres & Hidx); try lia.
    eexists _, res. split; [exact Hrun |]. unfold cursor_ok. simpl.
    do 5 (split; [reflexivity |]). split; [| split; assumption].
    split; [exact Hlen |]. left. apply Z.mod_pos_bound. lia.
  - unfold PickNextAt. rewrite Hnil. change (len []) with 0.
    rewrite Z.min_r by assumption. simpl. eexists _, []. split; [reflexivity |].
    unfold cursor_ok. simpl.
    do 5 (split; [reflexivity |]). split; [| split; [reflexivity |]].
    + split; [rewrite Hnil in Hlen; exact Hlen |]. right.
      split; [reflexivity | assumption].
    + intros i Hi. change (len []) with 0 in Hi. lia.
Qed.

Lemma PickNextAt_negative (l : Level) (count : Z) :
  count < 0 -> PickNextAt l count = Panic RuntimeMakeSliceLen.
Proof.
  intros Hneg. unfold PickNextAt. pose proof (len_nonneg (nodes l)).
  destruct (Z.ltb_spec (Z.min count (len (nodes l))) 0); [reflexivity | lia].
Qed.

(** X2.  On a level whose cursor is sound, [PickNextAt(count)] panics
    exactly when [count] is negative (the length given to [make]);
    otherwise it returns [min(count, |nodes|)] peers, and the second
    result is always [true]. *)
Theorem PickNextAt_fails_only_on_negative_count (l : Level) (count : Z) :
  cursor_ok l ->
  (count < 0 -> PickNextAt l count = Panic RuntimeMakeSliceLen) /\
  (0 <= count ->
   exists l' res,
     PickNextAt l count = Ok (l', (res, true)) /\
     len res = Z.min count (len (nodes l)) /\ cursor_ok l').
Proof.
  intros Hc. split; [apply PickNextAt_negative |].
  intros Hcount.
  destruct (PickNextAt_total l count Hc Hcount)
    as (l' & res & Hrun & _ & _ & _ & _ & _ & Hc' & Hlen & _).
  exists l', res. split; [exact Hrun |]. split; [exact Hlen | exact Hc'].
Qed.

(** What either method leaves alone, and the two things that only move
    one way. *)
Lemma level_step_keeps (l : Level) (c : level_call) (l' : Level) :
  level_step l c = Ok l' ->
  id l' = id l /\ nodes l' = nodes l /\ started l' = started l /\
  completed l' = completed l /\ currentBestSize l <= currentBestSize l' /\
  (cursor_ok l -> cursor_ok l').
Proof.
  destruct c as [count | m]; cbn [level_step]; intros Hrun;
    apply bind_Ok_inv in Hrun as ([la ra] & Hcall & Hret); injection Hret as <-.
  - destruct (Z.ltb_spec count 0) as [Hneg | Hcount];
      [rewrite PickNextAt_negative in Hcall by assumption; discriminate |].
    assert (Hfields : id la = id l /\ nodes la = nodes l /\ started la = started l /\
                      completed la = completed l /\
                      currentBestSize la = currentBestSize l).
    { unfold PickNextAt in Hcall.
      destruct (Z.min count (len (nodes l)) <? 0); [discriminate |].
      apply bind_Ok_inv in Hcall as ([p res] & _ & Hret). injection Hret as <- _.
      repeat split. }
    destruct Hfields as (Hi & Hn & Hs & Hc & Hb).
    do 4 (split; [assumption |]). split; [lia |].
    intros Hok. destruct (PickNextAt_total l count Hok Hcount)
      as (l2 & res & Hrun2 & _ & _ & _ & _ & _ & Hok2 & _).
    rewrite Hrun2 in Hcall. injection Hcall as <- _. exact Hok2.
  - unfold updateBestSig in Hcall. destruct m as [m |]; [| discriminate].
    destruct (Cardinality m >? len (nodes l)); [discriminate |].
    destruct (Z.geb_spec (currentBestSize l) (Cardinality m)).
    + injection Hcall as <- _.
      do 4 (split; [reflexivity |]). split; [lia | tauto].
    + injection Hcall as <- _. unfold cursor_ok. simpl.
      do 4 (split; [reflexivity |]). split; [lia | tauto].
Qed.

Lemma level_run_keeps (cs : list level_call) :
  forall l l',
    level_run l cs = Ok l' ->
    id l' = id l /\ nodes l' = nodes l /\ started l' = started l /\
    completed l' = completed l /\ currentBestSize l <= currentBestSize l' /\
    (cursor_ok l -> cursor_ok l').
Proof.
  induction cs as [| c cs IH]; intros l l' Hrun.
  - injection Hrun as <-. do 4 (split; [reflexivity |]). split; [lia | tauto].
  - cbn [level_run] in Hrun. apply bind_Ok_inv in Hrun as (l1 & Hstep & Hrest).
    apply level_step_keeps in Hstep as (Hi & Hn & Hs & Hc & Hb & Hok).
    apply IH in Hrest as (Hi' & Hn' & Hs' & Hc' & Hb' & Hok').
    do 4 (split; [congruence |]). split; [lia | tauto].
Qed.

(** X3.  Whatever calls of [PickNextAt] and [updateBestSig] a level
    goes through, its [id], [nodes], [started] and [completed] stay as
    they were (neither method ever sets [completed]), [currentBestSize]
    never goes down, and a sound cursor stays sound. *)
Theorem Level_methods_keep (l : Level) (cs : list level_call) (l' : Level) :
  level_run l cs = Ok l' ->
  id l' = id l /\ nodes l' = nodes l /\ started l' = started l /\
  completed l' = completed l /\ currentBestSize l <= currentBestSize l' /\
  (cursor_ok l -> cursor_ok l').
Proof. apply level_run_keeps. Qed.

(** X4.  A level object reports completion once: after [updateBestSig]
    has returned [true], every later call of it on that object, with
    any calls of [PickNextAt] in between, returns [false] and changes
    nothing (or panics). *)
Theorem updateBestSig_completes_once (l : Level) (m : MultiSignature) (l1 : Level) :
  updateBestSig l (Some m) = Ok (l1, true) ->
  forall (cs : list level_call) (l2 : Level),
    level_run l1 cs = Ok l2 ->
    forall (m' : option MultiSignature) (l3 : Level) (r : bool),
      updateBestSig l2 m' = Ok (l3, r) -> r = false /\ l3 = l2.
Proof.
  intros Hfirst cs l2 Hrun m' l3 r Hagain.
  assert (Hfull : len (nodes l1) <= currentBestSize l1).
  { unfold updateBestSig in Hfirst.
    destruct (Cardinality m >? len (nodes l)); [discriminate |].
    destruct (currentBestSize l >=? Cardinality m); [discriminate |].
    injection Hfirst as <- Hr. simpl in *. apply Z.eqb_eq in Hr. lia. }
  apply level_run_keeps in Hrun as (_ & Hn & _ & _ & Hb & _).
  unfold updateBestSig in Hagain. destruct m' as [m' |]; [| discriminate].
  destruct (Z.gtb_spec (Cardinality m') (len (nodes l2))); [discriminate |].
  destruct (Z.geb_spec (currentBestSize l2) (Cardinality m')).
  - injection Hagain as <- <-. split; reflexivity.
  - rewrite Hn in *. lia.
Qed.

End LevelMore.

Section LevelRounds.
Context `{Collaborators}.

Lemma index_lookup {A : Type} (s : list A) (z : Z) :
  0 <= z -> index s z = s !! Z.to_nat z.
Proof. intros Hz. unfold index. destruct (Z.ltb_spec z 0); [lia | reflexivity]. Qed.

Lemma lookup_index {A : Type} (s : list A) (i : nat) :
  s !! i = index s (Z.of_nat i).
Proof. rewrite index_lookup by lia. rewrite Nat2Z.id. reflexivity. Qed.

(** The nodes from the cursor to the end, then those before it. *)
Lemma rotation_lookup {A : Type} (ns : list A) (p : nat) (i : nat) :
  (p < length ns)%nat -> (i < length ns)%nat ->
  (drop p ns ++ take p ns) !! i =
    index ns ((Z.of_nat p + Z.of_nat i) mod len ns).
Proof.
  intros Hp Hi. unfold len.
  destruct (Nat.lt_ge_cases i (length ns - p)) as [Hlt | Hge].
  - rewrite lookup_app_l by (rewrite length_drop; lia).
    rewrite lookup_drop, Z.mod_small by lia.
    rewrite index_lookup by lia. f_equal. lia.
  - rewrite lookup_app_r by (rewrite length_drop; lia).
    rewrite length_drop. rewrite lookup_take_lt by lia.
    replace ((Z.of_nat p + Z.of_nat i) mod Z.of_nat (length ns))
      with (Z.of_nat p + Z.of_nat i - Z.of_nat (length ns)).
    + rewrite index_lookup by lia. f_equal. lia.
    + apply Z.mod_unique with (q := 1); lia.
Qed.

(** X5.  Asking a level with candidates for at least as many peers as
    it has returns every candidate once: those from the cursor to the
    end, then those before the cursor; the cursor ends where it was. *)
Theorem PickNextAt_full_round (l : Level) (count : Z) :
  cursor_ok l -> nodes l <> [] -> len (nodes l) <= count ->
  exists l',
    PickNextAt l count =
      Ok (l', (drop (Z.to_nat (pos l)) (nodes l) ++
               take (Z.to_nat (pos l)) (nodes l), true)) /\
    pos l' = pos l /\ nodes l' = nodes l.
Proof.
  intros [Hlen [Hpos | [Hnil _]]] Hne Hcount; [| contradiction].
  pose proof (len_nonneg (nodes l)) as Hn.
  destruct (PickNextAt_picks l count) as (res & Hrun & Hres & Hidx); try lia.
  rewrite Z.min_r in Hres by assumption.
  assert (Hrot : res = drop (Z.to_nat (pos l)) (nodes l) ++
                       take (Z.to_nat (pos l)) (nodes l)).
  { apply list_eq. intros i.
    destruct (Nat.lt_ge_cases i (length (nodes l))) as [Hi | Hi].
    - rewrite rotation_lookup by (unfold len in *; lia).
      rewrite lookup_index, Hidx by (unfold len in *; lia).
      rewrite Z2Nat.id by lia. reflexivity.
    - rewrite !lookup_ge_None_2; [reflexivity | | unfold len in *; lia].
      rewrite length_app, length_drop, length_take. unfold len in *. lia. }
  eexists. rewrite <- Hrot. split; [exact Hrun |]. simpl.
  split; [| reflexivity]. rewrite Hres.
  replace (pos l + len (nodes l)) with (pos l + 1 * len (nodes l)) by lia.
  rewrite Z_mod_plus_full. apply Z.mod_small. lia.
Qed.

Lemma pick_ones_sent (k : nat) :
  forall l : Level,
    Level_inv l -> 0 < len (nodes l) ->
    (len (nodes l) <= sent l -> finished l = true) ->
    sent l + Z.of_nat k <= maxInt ->
    exists lk peers,
      pick_ones l k = Ok (lk, peers) /\
      sent lk = sent l + Z.of_nat k /\
      (finished lk = true <-> len (nodes l) <= sent l + Z.of_nat k).
Proof.
  pose proof minInt_neg as Hmin.
  induction k as [| k IH]; intros l Hinv Hne Hfin Hsent.
  - exists l, []. split; [reflexivity |]. split; [simpl; lia |].
    rewrite Z.add_0_r. destruct Hinv as (_ & _ & _ & _ & _ & Hf).
    split; [exact Hf | exact Hfin].
  - assert (Hpos : 0 <= pos l < len (nodes l)).
    { destruct Hinv as (_ & Hp0 & [Hp | [Hnil _]] & _); [lia |].
      rewrite Hnil in Hne. discriminate. }
    assert (Hlen : len (nodes l) <= maxInt) by (destruct Hinv; assumption).
    assert (Hs : 0 <= sent l) by (destruct Hinv as (_ & _ & _ & Hs & _); lia).
    destruct (PickNextAt_picks l 1) as (res & Hpick & Hres & _); try lia.
    rewrite Z.min_l in Hres by lia.
    cbn [pick_ones]. rewrite Hpick. simpl.
    match goal with
    | |- context [pick_ones ?l1 k] =>
        destruct (IH l1) as (lk & rest & Hrun & Hsk & Hfk)
    end.
    + eapply PickNextAt_inv; [exact Hinv | | exact Hpick].
      rewrite Z.min_l by lia. lia.
    + simpl. exact Hne.
    + simpl. rewrite Hres. intros Hge.
      destruct (Z.geb_spec (int (sent l + 1)) (len (nodes l))); [reflexivity | lia].
    + simpl. rewrite Hres, int_small by lia. lia.
    + simpl in Hsk, Hfk. rewrite Hres, int_small in Hsk, Hfk by lia.
      rewrite Hrun. simpl. eexists _, _. split; [reflexivity |].
      split; [lia |]. rewrite Hfk. lia.
Qed.

(** X6.  After an improvement ([sent] zero, [finished] cleared) a level
    with candidates is finished after exactly [|nodes|] single picks:
    after [k] calls of [PickNextAt(1)], [sent] is [k] and [finished]
    holds if and only if [k >= |nodes|]. *)
Theorem finished_after_one_pick_per_node (l : Level) (k : nat) :
  Level_inv l -> 0 < len (nodes l) -> sent l = 0 -> finished l = false ->
  Z.of_nat k <= maxInt ->
  exists lk peers,
    pick_ones l k = Ok (lk, peers) /\
    sent lk = Z.of_nat k /\
    (finished lk = true <-> len (nodes l) <= Z.of_nat k).
Proof.
  intros Hinv Hne Hsent Hfin Hk.
  destruct (pick_ones_sent k l Hinv Hne) as (lk & peers & Hrun & Hs & Hf).
  - rewrite Hsent. lia.
  - rewrite Hsent. exact Hk.
  - exists lk, peers. rewrite Hsent in Hs, Hf. simpl in Hs, Hf.
    split; [exact Hrun |]. split; [exact Hs | exact Hf].
Qed.

End LevelRounds.

(** ** The aggregator: sends, packets, levels, output *)

Section AggregatorMore.
Context `{Collaborators}.

Lemma sendUpdate_ok (h : Handel) (l : Level) (count : Z) (sp : MultiSignature) :
  active l -> cursor_ok l -> 0 <= count ->
  Combined (store h) (byte (byte (id l) - 1)) = Some sp ->
  exists newNodes,
    sendUpdate h l count =
      Ok (sendTo (logf h (LogSending (id l) (BitLength sp) newNodes))
            (id l) sp newNodes) /\
    len newNodes = Z.min count (len (nodes l)) /\
    forall i, 0 <= i < len newNodes ->
      index newNodes i = index (nodes l) ((pos l + i) mod len (nodes l)).
Proof.
  intros [Hst Hfin] Hcur Hcount Hsp. unfold sendUpdate.
  rewrite Hst, Hfin, Hsp. simpl.
  destruct (PickNextAt_total l count Hcur Hcount)
    as (l' & res & Hrun & Hid & _ & _ & _ & _ & _ & Hlen & Hidx).
  rewrite Hrun. simpl. rewrite Hid. exists res. repeat split; assumption.
Qed.

(** X7.  [sendUpdate] of a level that is started and not finished, with
    a sound cursor, a count that is not negative and a combined
    signature in the store: one packet goes to the next
    [min(count, |nodes|)] peers from the cursor on; it carries the own
    ID as origin, the level's id as a byte and the marshalled combined
    signature of the level below.  When marshalling fails nothing is
    sent.  Nothing else in the aggregator changes. *)
Theorem sendUpdate_dispatches (h : Handel) (l : Level) (count : Z)
    (sp : MultiSignature) :
  active l -> cursor_ok l -> 0 <= count ->
  Combined (store h) (byte (byte (id l) - 1)) = Some sp ->
  exists newNodes h',
    sendUpdate h l count = Ok h' /\
    same_but_sends h h' /\
    len newNodes = Z.min count (len (nodes l)) /\
    (forall i, 0 <= i < len newNodes ->
       index newNodes i = index (nodes l) ((pos l + i) mod len (nodes l))) /\
    (snd (MarshalBinary sp) = None ->
     sends h' = sends h ++ [(newNodes, update_packet h l sp)]) /\
    (snd (MarshalBinary sp) <> None -> sends h' = sends h).
Proof.
  intros Hact Hcur Hcount Hsp.
  destruct (sendUpdate_ok h l count sp Hact Hcur Hcount Hsp)
    as (newNodes & Hrun & Hlen & Hidx).
  exists newNodes. eexists. split; [exact Hrun |].
  split; [eapply sendUpdate_same; exact Hrun |].
  split; [exact Hlen |]. split; [exact Hidx |].
  unfold sendTo, update_packet. destruct (MarshalBinary sp) as [buff [e |]]; simpl.
  - split; [discriminate | reflexivity].
  - split; [reflexivity | congruence].
Qed.

(** One tick step for a level as [NewLevel] left its cursor. *)
Lemma sendUpdate_first (h : Handel) (l : Level) (sp : MultiSignature) :
  active l -> pos l = 0 ->
  Combined (store h) (byte (byte (id l) - 1)) = Some sp ->
  snd (MarshalBinary sp) = None ->
  exists h',
    sendUpdate h l 1 = Ok h' /\
    sends h' = sends h ++ [(take 1 (nodes l), update_packet h l sp)].
Proof.
  intros [Hst Hfin] Hpos Hsp Hm. unfold sendUpdate, PickNextAt.
  rewrite Hst, Hfin, Hsp, Hpos. simpl.
  destruct (nodes l) as [| x ns] eqn:Hns.
  - simpl. unfold sendTo, update_packet.
    destruct (MarshalBinary sp) as [buff [e |]]; [discriminate |].
    eexists. split; reflexivity.
  - assert (Hsize : Z.min 1 (len (x :: ns)) = 1).
    { unfold len. simpl. lia. }
    rewrite Hsize. simpl. unfold sendTo, update_packet.
    destruct (MarshalBinary sp) as [buff [e |]]; [discriminate |].
    eexists. split; reflexivity.
Qed.

Lemma periodicUpdate_loop_sends (spf : Level -> MultiSignature) (lvls : list Level) :
  forall h : Handel,
    (forall l, In l lvls ->
       active l /\ pos l = 0 /\
       Combined (store h) (byte (byte (id l) - 1)) = Some (spf l) /\
       snd (MarshalBinary (spf l)) = None) ->
    exists h',
      periodicUpdate_loop h lvls = Ok h' /\
      sends h' =
        sends h ++ map (fun l => (take 1 (nodes l), update_packet h l (spf l))) lvls.
Proof.
  induction lvls as [| l0 rest IH]; intros h Hall.
  - exists h. split; [reflexivity |]. simpl. rewrite app_nil_r. reflexivity.
  - destruct (Hall l0 (or_introl eq_refl)) as (Hact & Hpos & Hsp & Hm).
    destruct (sendUpdate_first h l0 (spf l0) Hact Hpos Hsp Hm) as (h1 & Hone & Hs1).
    cbn [periodicUpdate_loop]. rewrite Hone. simpl.
    pose proof (sendUpdate_same _ _ _ _ Hone) as [Hcore _].
    assert (Hself : self h1 = self h /\ store h1 = store h).
    { unfold core in Hcore. injection Hcore as _ _ Hself Hstore _. split; assumption. }
    destruct Hself as [Hself Hstore].
    destruct (IH h1) as (h' & Hrun & Hs').
    { intros l Hin. rewrite Hstore. apply Hall. right. exact Hin. }
    exists h'. split; [exact Hrun |]. rewrite Hs', Hs1, <- app_assoc. simpl.
    do 2 f_equal. apply map_ext. intros l. unfold update_packet.
    rewrite Hself. reflexivity.
Qed.

(** X8.  Ticks do not rotate.  In an aggregator whose levels are all
    started, not finished and have the cursor at zero (as [NewHandel]
    builds them), with a combined signature for every level, each tick
    sends one packet per level, in level order, to the first candidate
    of the level (to nobody for a level without candidates); [n] ticks
    send the same packets to the same peers [n] times. *)
Theorem ticks_repeat_first_candidates (h : Handel)
    (spf : Level -> MultiSignature) (n : nat) :
  (forall l, In l (levels h) ->
     active l /\ pos l = 0 /\
     Combined (store h) (byte (byte (id l) - 1)) = Some (spf l) /\
     snd (MarshalBinary (spf l)) = None) ->
  exists h',
    run h (replicate n EvTick) = Ok h' /\
    sends h' =
      sends h ++
      concat (replicate n
                (map (fun l => (take 1 (nodes l), update_packet h l (spf l)))
                     (levels h))).
Proof.
  revert h. induction n as [| n IH]; intros h Hall.
  - exists h. split; [reflexivity |]. simpl. rewrite app_nil_r. reflexivity.
  - destruct (periodicUpdate_loop_sends spf (levels h) h Hall) as (h1 & Htick & Hs1).
    pose proof (periodicUpdate_same h h1 Htick) as [Hcore _].
    assert (Hsame : self h1 = self h /\ store h1 = store h /\ levels h1 = levels h).
    { unfold core in Hcore. injection Hcore as _ _ Hself Hstore _ _ _ _ _ Hl _ _ _.
      repeat split; assumption. }
    destruct Hsame as (Hself & Hstore & Hlv).
    destruct (IH h1) as (h' & Hrun & Hs').
    { rewrite Hlv, Hstore. exact Hall. }
    exists h'. cbn [replicate run step]. unfold periodicUpdate. rewrite Htick. simpl.
    split; [exact Hrun |]. rewrite Hs', Hs1, Hlv, <- app_assoc. simpl.
    do 4 f_equal. apply map_ext. intros l. unfold update_packet.
    rewrite Hself. reflexivity.
Qed.

End AggregatorMore.

Section PacketsAndLevels.
Context `{Collaborators}.

(** X9.  [NewPacket] on a running aggregator never panics and touches
    only the log and the verification queue.  It queues the packet, as
    a pair with the packet's origin and level and the signature read,
    exactly when the origin is below [int32(N)], the level is in
    [1, log2(N)] and the signature unmarshals without error; otherwise
    the queue is left as it is. *)
Theorem NewPacket_queues_exactly_the_accepted (h : Handel) (p : Packet) :
  done h = false ->
  exists h',
    NewPacket h p = Ok h' /\
    sends h' = sends h /\ out h' = out h /\ best h' = best h /\
    currLevel h' = currLevel h /\ levels h' = levels h /\
    store h' = store h /\ done h' = false /\
    ((Origin p < int32 (reg_Size h) /\
      1 <= PacketLevel p <= log2 (reg_Size h) /\
      snd (Unmarshal (MultiSig p)) = None) ->
     incoming h' =
       incoming h ++ [{| origin := Origin p; level := PacketLevel p;
                         ms := Some (fst (Unmarshal (MultiSig p))) |}]) /\
    (~ (Origin p < int32 (reg_Size h) /\
        1 <= PacketLevel p <= log2 (reg_Size h) /\
        snd (Unmarshal (MultiSig p)) = None) ->
     incoming h' = incoming h).
Proof.
  intros Hdone. unfold NewPacket, parsePacket. rewrite Hdone.
  destruct (Z.geb_spec (Origin p) (int32 (reg_Size h))) as [Ho | Ho].
  { eexists. split; [reflexivity |]. simpl.
    do 6 (split; [reflexivity |]). split; [exact Hdone |].
    split; [intros (Hv & _); lia | reflexivity]. }
  destruct (Z.ltb_spec (PacketLevel p) 1) as [Hl1 | Hl1].
  { eexists. split; [reflexivity |]. simpl.
    do 6 (split; [reflexivity |]). split; [exact Hdone |].
    split; [intros (_ & Hv & _); lia | reflexivity]. }
  destruct (Z.gtb_spec (PacketLevel p) (log2 (reg_Size h))) as [Hl2 | Hl2].
  { eexists. split; [reflexivity |]. simpl.
    do 6 (split; [reflexivity |]). split; [exact Hdone |].
    split; [intros (_ & Hv & _); lia | reflexivity]. }
  simpl. destruct (Unmarshal (MultiSig p)) as [m [e |]]; simpl.
  - eexists. split; [reflexivity |]. simpl.
    do 6 (split; [reflexivity |]). split; [exact Hdone |].
    split; [intros (_ & _ & Hv); discriminate | reflexivity].
  - eexists. split; [reflexivity |]. simpl.
    do 6 (split; [reflexivity |]). split; [exact Hdone |].
    split; [reflexivity |]. intros Hnot. exfalso. apply Hnot.
    repeat split; lia.
Qed.

Lemma startNextLevel_currLevel (h h' : Handel) :
  startNextLevel h = Ok h' ->
  (len (levels h) <= currLevel h /\ currLevel h' = currLevel h) \/
  (currLevel h < len (levels h) /\ currLevel h' = byte (currLevel h + 1)).
Proof.
  unfold startNextLevel.
  destruct (Z.geb_spec (currLevel h) (len (levels h))) as [Hge | Hlt].
  - intros [= <-]. left. split; [exact Hge | reflexivity].
  - intros Hrun. apply bind_Ok_inv in Hrun as (h1 & Hsend & Hret).
    injection Hret as <-. apply sendBestUpTo_same in Hsend as [_ Hlvl].
    right. split; [exact Hlt |]. simpl. rewrite Hlvl. reflexivity.
Qed.

(** X10.  [checkCompletedLevel] moves [currLevel] only in one case: the
    verified pair is for the current level, that level is not the last,
    and the store's best for it has exactly as many contributors as the
    level has nodes.  Then [currLevel] goes up by one (as a byte). *)
Theorem checkCompletedLevel_advances_only_on_full_level (h : Handel) (s : sigPair)
    (h' : Handel) :
  checkCompletedLevel h s = Ok h' ->
  currLevel h' = currLevel h \/
  (level s = currLevel h /\ currLevel h < len (levels h) /\
   currLevel h' = byte (currLevel h + 1) /\
   exists lvl m,
     index (levels h) (byte (level s - 1)) = Some lvl /\
     Best (store h) (level s) = (Some m, true) /\
     Cardinality m = len (nodes lvl)).
Proof.
  unfold checkCompletedLevel.
  destruct (index (levels h) (byte (level s - 1))) as [lvl |] eqn:Hidx; [| discriminate].
  destruct (completed lvl); [intros [= <-]; left; reflexivity |].
  destruct (Best (store h) (level s)) as [m ok] eqn:Hbest.
  destruct ok; [| discriminate]. simpl.
  intros Hrun. apply bind_Ok_inv in Hrun as ([lvl' r] & Hupd & Hrest).
  destruct r; simpl in Hrest; [| injection Hrest as <-; left; reflexivity].
  destruct (Z.eqb_spec (level s) (currLevel h)) as [Hcur | Hcur].
  - apply startNextLevel_currLevel in Hrest as [[_ Hsame] | [Hlt Hnext]];
      [left; exact Hsame |].
    right. split; [exact Hcur |]. split; [exact Hlt |]. split; [exact Hnext |].
    unfold updateBestSig in Hupd. destruct m as [m |]; [| discriminate].
    destruct (Cardinality m >? len (nodes lvl)); [discriminate |].
    destruct (currentBestSize lvl >=? Cardinality m); [discriminate |].
    injection Hupd as _ Hr. simpl in Hr. apply Z.eqb_eq in Hr.
    exists lvl, m. repeat split. exact Hr.
  - left. destruct (id lvl' <? int (len (levels h) - 1)).
    + apply sendBestUpTo_same in Hrest as [_ Hlvl]. exact Hlvl.
    + injection Hrest as <-. reflexivity.
Qed.

(** X11.  A verified pair whose level is not yet full does nothing in
    [checkCompletedLevel]: when the store's best for the level has
    fewer contributors than the level has nodes, the aggregator is
    returned as it was, nothing sent, no level started. *)
Theorem checkCompletedLevel_ignores_partial_level (h : Handel) (s : sigPair)
    (lvl : Level) (m : MultiSignature) :
  index (levels h) (byte (level s - 1)) = Some lvl ->
  Best (store h) (level s) = (Some m, true) ->
  Cardinality m < len (nodes lvl) ->
  checkCompletedLevel h s = Ok h.
Proof.
  intros Hidx Hbest Hpart. unfold checkCompletedLevel. rewrite Hidx.
  destruct (completed lvl); [reflexivity |]. rewrite Hbest. simpl.
  destruct (Z.gtb_spec (Cardinality m) (len (nodes lvl))); [lia |].
  destruct (Z.geb_spec (currentBestSize lvl) (Cardinality m)); [reflexivity |].
  simpl. destruct (Z.eqb_spec (Cardinality m) (len (nodes lvl))); [lia | reflexivity].
Qed.

(** X12.  How [checkCompletedLevel] fails.  A pair for level zero or
    for a level above the last one indexes outside [levels] (level zero
    wraps to 255 as a byte); for a level that is not completed, a store
    without a best at that level is fatal, and so is a best with more
    contributors than the level has nodes. *)
Theorem checkCompletedLevel_panics (h : Handel) (s : sigPair) :
  len (levels h) <= 255 -> 0 <= level s < 256 ->
  (level s = 0 \/ len (levels h) < level s ->
   checkCompletedLevel h s = Panic RuntimeIndexOutOfRange) /\
  (forall lvl,
     index (levels h) (byte (level s - 1)) = Some lvl -> completed lvl = false ->
     (snd (Best (store h) (level s)) = false ->
      checkCompletedLevel h s = Panic PanicStoreWrong) /\
     (forall m, Best (store h) (level s) = (Some m, true) ->
        len (nodes lvl) < Cardinality m ->
        checkCompletedLevel h s =
          Panic (PanicTooManySignatures (id lvl) (len (nodes lvl)) (Cardinality m)))).
Proof.
  intros Hlen Hbyte. unfold checkCompletedLevel. split.
  - intros Hout. rewrite index_out_of_range; [reflexivity |]. right.
    destruct Hout as [Hz | Hbig].
    + rewrite Hz. change (byte (0 - 1)) with 255. lia.
    + pose proof (len_nonneg (levels h)). rewrite byte_small by lia. lia.
  - intros lvl Hidx Hcomp. rewrite Hidx, Hcomp. split.
    + intros Hok. destruct (Best (store h) (level s)) as [m ok].
      simpl in Hok. rewrite Hok. reflexivity.
    + intros m Hbest Hbig. rewrite Hbest. simpl.
      destruct (Z.gtb_spec (Cardinality m) (len (nodes lvl))); [reflexivity | lia].
Qed.

End PacketsAndLevels.

Section RunsMore.
Context `{Collaborators}.

Lemma checkFinalSignature_currLevel (h : Handel) (s : sigPair) (h' : Handel) :
  checkFinalSignature h s = Ok h' ->
  currLevel h' = currLevel h /\ levels h' = levels h /\ store h' = store h.
Proof.
  unfold checkFinalSignature, newBest, set_best_and_send.
  destruct (FullSignature (store h)) as [m |]; [| discriminate].
  destruct (Cardinality m <? threshold h); [intros [= <-]; repeat split |].
  destruct (best h) as [b |]; cbv zeta;
    [destruct (Cardinality m >? Cardinality b); [| intros [= <-]; repeat split] |];
    (destruct (done h); [intros [= <-]; repeat split |]);
    (destruct (out_closed h); [discriminate |]); intros [= <-]; repeat split.
Qed.

Lemma checkCompletedLevel_currLevel (h : Handel) (s : sigPair) (h' : Handel) :
  checkCompletedLevel h s = Ok h' ->
  currLevel h' = currLevel h \/
  (currLevel h < len (levels h) /\ currLevel h' = byte (currLevel h + 1)).
Proof.
  unfold checkCompletedLevel.
  destruct (index (levels h) (byte (level s - 1))) as [lvl |]; [| discriminate].
  destruct (completed lvl); [intros [= <-]; left; reflexivity |].
  destruct (Best (store h) (level s)) as [m ok].
  destruct (negb ok); [discriminate |].
  intros Hrun. apply bind_Ok_inv in Hrun as ([lvl' r] & _ & Hrest).
  destruct (negb r); [injection Hrest as <-; left; reflexivity |].
  destruct (level s =? currLevel h).
  - apply startNextLevel_currLevel in Hrest as [[_ Hsame] | Hnext];
      [left; exact Hsame | right; exact Hnext].
  - left. destruct (id lvl' <? int (len (levels h) - 1)).
    + apply sendBestUpTo_same in Hrest as [_ Hlvl]. exact Hlvl.
    + injection Hrest as <-. reflexivity.
Qed.

Lemma step_currLevel (h : Handel) (e : event) (h' : Handel) :
  step h e = Ok h' ->
  currLevel h' = currLevel h \/
  (currLevel h < len (levels h) /\ currLevel h' = byte (currLevel h + 1)).
Proof.
  destruct e as [| | p | st' | v st' |]; cbn [step].
  - intros Hrun. apply startNextLevel_currLevel in Hrun as [[_ Hs] | Hn];
      [left; exact Hs | right; exact Hn].
  - intros Hrun. apply periodicUpdate_same in Hrun as [_ Hl]. left. exact Hl.
  - unfold NewPacket. destruct (done h); [intros [= <-]; left; reflexivity |].
    destruct (parsePacket h p) as [[m |] [err |]]; try discriminate;
      intros [= <-]; left; reflexivity.
  - intros [= <-]. left. reflexivity.
  - unfold onVerified, actors. cbn [run_actors]. intros Hrun.
    apply bind_Ok_inv in Hrun as (h3 & Hccl & Hrun).
    apply bind_Ok_inv in Hrun as (h4 & Hcfs & Hret). injection Hret as <-.
    apply checkFinalSignature_currLevel in Hcfs as (Hc & _).
    apply checkCompletedLevel_currLevel in Hccl. simpl in Hccl.
    rewrite Hc. exact Hccl.
  - unfold Stop. destruct (out_closed h); [discriminate |]. intros [= <-].
    left. reflexivity.
Qed.

(** X13.  [currLevel] only climbs and stops at the last level: in any
    run of an aggregator with at most 255 levels that starts with
    [currLevel] between zero and the number of levels (zero after
    [NewHandel]), [currLevel] never goes down and never exceeds the
    number of levels. *)
Theorem currLevel_climbs_to_last_level (h : Handel) (es : list event) (h' : Handel) :
  len (levels h) <= 255 -> 0 <= currLevel h <= len (levels h) ->
  run h es = Ok h' ->
  currLevel h <= currLevel h' <= len (levels h).
Proof.
  intros Hlen. revert h Hlen. induction es as [| e es IH]; intros h Hlen Hcur Hrun.
  - injection Hrun as <-. lia.
  - cbn [run] in Hrun. apply bind_Ok_inv in Hrun as (h1 & Hstep & Hrest).
    pose proof (step_effects h e h1 Hstep) as (Hlv & _).
    apply step_currLevel in Hstep.
    assert (Hc1 : currLevel h <= currLevel h1 <= len (levels h)).
    { destruct Hstep as [Hs | [Hlt Hn]]; [lia |].
      rewrite Hn, byte_small by lia. lia. }
    apply IH in Hrest; rewrite ?Hlv in *; lia.
Qed.

Lemma run_out_grows (es : list event) :
  forall h h', run h es = Ok h' -> exists more, out h' = out h ++ more.
Proof.
  induction es as [| e es IH]; intros h h' Hrun.
  - injection Hrun as <-. exists []. rewrite app_nil_r. reflexivity.
  - cbn [run] in Hrun. apply bind_Ok_inv in Hrun as (h1 & Hstep & Hrest).
    apply IH in Hrest as (more & Hmore).
    apply step_effects in Hstep as (_ & _ & _ & [[Ho _] | (m & Hem)]).
    + exists more. congruence.
    + destruct Hem as (_ & _ & _ & Ho & _). exists (m :: more).
      rewrite Hmore, Ho, <- app_assoc. reflexivity.
Qed.

(** X14.  The output is append-only and [best] mirrors it: in any run,
    what was sent on the output channel stays a prefix of what is sent
    later; and in a run that starts without a best and with nothing
    sent, [best] is nil exactly while nothing has been sent and is
    otherwise the last value sent. *)
Theorem best_is_last_output (h : Handel) (es : list event) (h' : Handel) :
  run h es = Ok h' ->
  (exists more, out h' = out h ++ more) /\
  (best h = None -> out h = [] -> best h' = last (out h')).
Proof.
  intros Hrun. split; [eapply run_out_grows; exact Hrun |].
  intros Hbest Hout.
  assert (Hok : emissions_ok h).
  { unfold emissions_ok. rewrite Hbest, Hout. simpl.
    split; [constructor | split; [constructor | reflexivity]]. }
  pose proof (run_emissions_ok es h h' Hok Hrun) as (_ & _ & Hlast).
  destruct (best h') as [b |]; [symmetry; exact Hlast |].
  rewrite Hlast. reflexivity.
Qed.

(** X15.  [checkFinalSignature] is idempotent on an unchanged store:
    run again right after itself it changes nothing, so a replayed
    verified signature is not sent out twice. *)
Theorem checkFinalSignature_replay_is_silent (h : Handel) (s s' : sigPair)
    (h1 : Handel) :
  checkFinalSignature h s = Ok h1 -> checkFinalSignature h1 s' = Ok h1.
Proof.
  intros Hrun. pose proof Hrun as Hfirst.
  apply checkFinalSignature_effect in Hrun as [-> | (m & Hfull & Hem)].
  - unfold checkFinalSignature in *. exact Hfirst.
  - apply checkFinalSignature_currLevel in Hfirst as (_ & _ & Hstore).
    destruct Hem as (_ & Hthr & _ & _ & Hbest & _ & Ht & _).
    unfold checkFinalSignature. rewrite Hstore, Hfull, Ht, Hbest.
    destruct (Z.ltb_spec (Cardinality m) (threshold h)); [lia |]. cbv zeta.
    destruct (Z.gtb_spec (Cardinality m) (Cardinality m)); [lia | reflexivity].
Qed.

(** X16.  [findNextLevel(lvl)] returns the lowest level above [lvl]
    that has candidates, with a nil error, whenever there is one: the
    empty levels in between are skipped. *)
Theorem findNextLevel_lowest_non_empty (h : Handel) (lvl l' : Z) (lv' : Level) :
  0 <= lvl < len (levels h) -> len (levels h) < maxInt ->
  lvl < l' <= len (levels h) ->
  (forall i lv, lvl <= i < l' - 1 -> index (levels h) i = Some lv -> nodes lv = []) ->
  index (levels h) (l' - 1) = Some lv' -> nodes lv' <> [] ->
  findNextLevel h lvl = Ok (l', None).
Proof.
  intros Hlvl Hlen Hl' Hempty Hfound Hne. unfold findNextLevel.
  pose proof minInt_neg. rewrite int_small by lia.
  apply (findNextLevel_loop_finds (levels h) lvl) with
    (k := Z.to_nat (l' - (lvl + 1))) (lv' := lv'); try lia; try assumption.
  intros i lv Hi. apply Hempty. lia.
Qed.

(** X17.  [sendBestUpTo(lvl)] with a level with candidates above
    [lvl]: the lowest such level [l'] gets one packet, sent to its next
    [min(CandidateCount, |nodes|)] peers from the cursor on; the packet
    is for level [l'] and carries the combined signature up to
    [l' - 1], whether or not levels were skipped. *)
Theorem sendBestUpTo_dispatches (h : Handel) (lvl l' : Z) (lv' : Level)
    (sp : MultiSignature) :
  0 <= lvl < len (levels h) -> len (levels h) < maxInt ->
  lvl < l' <= len (levels h) ->
  (forall i lv, lvl <= i < l' - 1 -> index (levels h) i = Some lv -> nodes lv = []) ->
  index (levels h) (l' - 1) = Some lv' -> nodes lv' <> [] ->
  id lv' = l' -> active lv' -> cursor_ok lv' -> 0 <= CandidateCount h ->
  Combined (store h) (byte (byte l' - 1)) = Some sp ->
  snd (MarshalBinary sp) = None ->
  exists newNodes h',
    sendBestUpTo h lvl = Ok h' /\
    sends h' =
      sends h ++ [(newNodes, {| Origin := ID (self h); PacketLevel := byte l';
                                MultiSig := fst (MarshalBinary sp) |})] /\
    len newNodes = Z.min (CandidateCount h) (len (nodes lv')) /\
    forall i, 0 <= i < len newNodes ->
      index newNodes i = index (nodes lv') ((pos lv' + i) mod len (nodes lv')).
Proof.
  intros Hlvl Hlen Hl' Hempty Hfound Hne Hid Hact Hcur Hcc Hsp Hm.
  rewrite (sendBestUpTo_next_level h lvl l' lv') by assumption.
  rewrite <- Hid in Hsp.
  destruct (sendUpdate_ok h lv' (CandidateCount h) sp Hact Hcur Hcc Hsp)
    as (newNodes & Hrun & Hn & Hidx).
  exists newNodes. eexists. split; [exact Hrun |].
  split; [| split; assumption].
  unfold sendTo. destruct (MarshalBinary sp) as [buff [e |]]; [discriminate |].
  simpl. rewrite Hid. reflexivity.
Qed.

End RunsMore.

(** ** Overlay connectors *)

Section ConnectorProperties.
Context `{Overlay}.

(** The node after connecting to each of [targets] in turn. *)
Abbreviation connect_all := (fold_left (fun nd i => fst (node_Connect nd i))).

(** Where the loop of [neighbor.Connect] stands after the skip of the
    own ID and [t] connections: the next index, wrapped or not. *)
Lemma neighbor_loop_walk (ids : list P2PIdentity) (nodeID : Z) :
  0 <= nodeID < len ids -> len ids <= maxInt ->
  (forall nd i, snd (node_Connect nd i) = None) ->
  forall (k : nat) (t : Z) (node : P2PNode) (calls : list P2PIdentity),
    0 <= t -> t + Z.of_nat k <= len ids - 1 ->
    exists added,
      neighbor_loop ids nodeID (len ids) k
        (if nodeID + 1 + t <=? len ids then nodeID + 1 + t
         else nodeID + 1 + t - len ids)
        (negb (nodeID + 1 + t <=? len ids)) node calls =
        (connect_all added node, calls ++ added, Returned None) /\
      len added = Z.of_nat k /\
      forall j, 0 <= j < Z.of_nat k ->
        index added j = index ids ((nodeID + 1 + t + j) mod len ids).
Proof.
  intros Hid Hlen Hsucc. pose proof minInt_neg as Hmin.
  set (n := len ids) in *.
  induction k as [| k IH]; intros t node calls Ht Hk.
  - exists []. simpl. rewrite app_nil_r.
    split; [reflexivity | split; [reflexivity | intros; lia]].
  - assert (Htarget : exists idt, index ids ((nodeID + 1 + t) mod n) = Some idt).
    { apply index_in_range. apply Z.mod_pos_bound. lia. }
    destruct Htarget as [idt Hidt].
    specialize (IH (t + 1) (fst (node_Connect node idt)) (calls ++ [idt])).
    destruct IH as (added & Hrun & Hadd & Hidx); [lia | lia |].
    replace (nodeID + 1 + (t + 1)) with (nodeID + 1 + t + 1) in Hrun by lia.
    assert (Hstep :
      neighbor_loop ids nodeID n (S k)
        (if nodeID + 1 + t <=? n then nodeID + 1 + t else nodeID + 1 + t - n)
        (negb (nodeID + 1 + t <=? n)) node calls =
      neighbor_loop ids nodeID n k
        (if nodeID + 1 + t + 1 <=? n then nodeID + 1 + t + 1
         else nodeID + 1 + t + 1 - n)
        (negb (nodeID + 1 + t + 1 <=? n))
        (fst (node_Connect node idt)) (calls ++ [idt])).
    { cbn [neighbor_loop]. pose proof (Hsucc node idt) as Hs.
      destruct (Z.leb_spec (nodeID + 1 + t) n) as [Hle | Hgt].
      - destruct (Z.eqb_spec (nodeID + 1 + t) n) as [Heq | Hne].
        + (* the wrap: the next index is zero, and it is not the own ID *)
          cbv beta iota zeta. cbn [negb andb].
          destruct (Z.eqb_spec 0 nodeID) as [Hz | Hnz]; [lia |].
          rewrite Heq, Z_mod_same_full in Hidt. rewrite Hidt.
          destruct (node_Connect node idt) as [node' err]. cbn [snd] in Hs.
          subst err. cbn [fst]. change (int (0 + 1)) with 1.
          destruct (Z.leb_spec (nodeID + 1 + t + 1) n); [lia |].
          cbn [negb]. replace (nodeID + 1 + t + 1 - n) with 1 by lia. reflexivity.
        + cbv beta iota zeta. cbn [negb andb].
          destruct (Z.eqb_spec (nodeID + 1 + t) nodeID); [lia |].
          rewrite Z.mod_small in Hidt by lia. rewrite Hidt.
          destruct (node_Connect node idt) as [node' err]. cbn [snd] in Hs.
          subst err. cbn [fst]. rewrite int_small by lia.
          destruct (Z.leb_spec (nodeID + 1 + t + 1) n); [| lia]. reflexivity.
      - cbv beta iota zeta. cbn [negb andb].
        destruct (Z.eqb_spec (nodeID + 1 + t - n) n); [lia |].
        cbv beta iota zeta.
        destruct (Z.eqb_spec (nodeID + 1 + t - n) nodeID); [lia |].
        replace ((nodeID + 1 + t) mod n) with (nodeID + 1 + t - n) in Hidt
          by (apply Z.mod_unique with (q := 1); lia).
        rewrite Hidt. destruct (node_Connect node idt) as [node' err].
        cbn [snd] in Hs. subst err. cbn [fst]. rewrite int_small by lia.
        destruct (Z.leb_spec (nodeID + 1 + t + 1) n); [lia |].
        cbn [negb]. f_equal. lia. }
    rewrite Hstep, Hrun. exists (idt :: added). rewrite <- app_assoc. simpl.
    split; [reflexivity |]. split; [unfold len in *; simpl; lia |].
    intros j Hj. destruct (Z.eq_dec j 0) as [-> | Hne].
    + rewrite index_cons_0, Z.add_0_r. symmetry. exact Hidt.
    + rewrite index_cons_pos by lia. rewrite Hidx by lia. do 2 f_equal. lia.
Qed.

(** X18.  [neighbor.Connect] with [max] at most the number of
    identities and every connection succeeding returns nil after
    connecting the node to [max - 1] identities, not [max]: the skip of
    the node's own ID uses up the first round of the loop.  The
    identities are the next ones after the own ID in the list, in
    order, wrapping at the end, and never the own one. *)
Theorem neighbor_Connect_next_in_ring (node : P2PNode) (ids : list P2PIdentity)
    (max : Z) :
  0 <= handelID node < len ids -> len ids <= maxInt -> 0 <= max <= len ids ->
  (forall nd i, snd (node_Connect nd i) = None) ->
  exists calls,
    neighbor_Connect node ids max =
      (connect_all calls node, calls, Returned None) /\
    len calls = Z.max 0 (max - 1) /\
    forall j, 0 <= j < len calls ->
      index calls j = index ids ((handelID node + 1 + j) mod len ids) /\
      (handelID node + 1 + j) mod len ids <> handelID node.
Proof.
  intros Hid Hlen Hmax Hsucc. pose proof minInt_neg as Hmin.
  unfold neighbor_Connect. cbv zeta.
  destruct (Z.to_nat max) as [| k] eqn:Hk.
  - exists []. split; [reflexivity |]. split; [simpl; change (len []) with 0; lia |].
    intros j Hj. change (len []) with 0 in Hj. lia.
  - cbn [neighbor_loop].
    destruct (Z.eqb_spec (handelID node) (len ids)); [lia |]. simpl.
    rewrite Z.eqb_refl, int_small by lia.
    destruct (neighbor_loop_walk ids (handelID node) Hid Hlen Hsucc k 0 node [])
      as (added & Hrun & Hadd & Hidx); [lia | lia |].
    rewrite Z.add_0_r in Hrun.
    destruct (Z.leb_spec (handelID node + 1) (len ids)); [| lia].
    simpl in Hrun. exists added. split; [exact Hrun |].
    split; [lia |]. intros j Hj. split.
    + rewrite Hidx by lia. do 2 f_equal. lia.
    + intros Hself.
      destruct (Z.lt_ge_cases (handelID node + 1 + j) (len ids)) as [Hlt | Hge].
      * rewrite Z.mod_small in Hself by lia. lia.
      * replace ((handelID node + 1 + j) mod len ids)
          with (handelID node + 1 + j - len ids) in Hself
          by (apply Z.mod_unique with (q := 1); lia).
        lia.
Qed.

Lemma random_loop_calls (ids : list P2PIdentity) (own n max : Z) (draws : list Z) :
  forall (chosen : Z) (node : P2PNode) (calls : list P2PIdentity) (r : connectRun),
    random_loop ids own n max draws chosen node calls = Some r ->
    Forall (fun i => identity_ID i <> own /\ In i ids) calls ->
    Forall (fun i => identity_ID i <> own /\ In i ids) (snd (fst r)) /\
    (0 <= chosen <= max -> max <= maxInt -> snd r = Returned None ->
     len (snd (fst r)) = len calls + (max - chosen)) /\
    (max < chosen -> snd (fst r) = calls).
Proof.
  pose proof minInt_neg as Hmin.
  induction draws as [| d rest IH]; intros chosen node calls r Hrun Hcalls.
  - destruct (Z.ltb_spec chosen max) as [Hlt | Hge]; cbn in Hrun;
      destruct (Z.ltb_spec chosen max); try lia.
    + destruct (n <=? 0); [| discriminate]. injection Hrun as <-. simpl.
      split; [exact Hcalls |]. split; [discriminate | lia].
    + injection Hrun as <-. simpl. split; [exact Hcalls |].
      split; [lia | reflexivity].
  - cbn [random_loop] in Hrun.
    destruct (Z.ltb_spec chosen max) as [Hlt | Hge].
    + destruct (n <=? 0).
      { injection Hrun as <-. simpl. split; [exact Hcalls |].
        split; [discriminate | lia]. }
      destruct (index ids d) as [idt |] eqn:Hidx.
      2:{ injection Hrun as <-. simpl. split; [exact Hcalls |].
          split; [discriminate | lia]. }
      assert (Hin : In idt ids).
      { unfold index in Hidx. destruct (d <? 0); [discriminate |].
        apply list_elem_of_In. eapply list_elem_of_lookup_2. exact Hidx. }
      destruct (Z.eqb_spec (identity_ID idt) own) as [Hown | Hother].
      * apply IH in Hrun as (Hall & Hcount & _); [| exact Hcalls].
        split; [exact Hall |]. split; [| lia].
        intros Hc Hm Hend. rewrite (int_small (chosen - 1)) in Hcount by lia.
        replace (chosen - 1 + 1) with chosen in Hcount by lia.
        rewrite (int_small chosen) in Hcount by lia.
        rewrite Hcount by (assumption || lia). lia.
      * destruct (node_Connect node idt) as [node' [e |]].
        { injection Hrun as <-. simpl. split; [| split; [discriminate | lia]].
          apply Forall_app. split; [exact Hcalls |].
          constructor; [split; assumption | constructor]. }
        apply IH in Hrun as (Hall & Hcount & _).
        2:{ apply Forall_app. split; [exact Hcalls |].
            constructor; [split; assumption | constructor]. }
        split; [exact Hall |]. split; [| lia].
        intros Hc Hm Hend. rewrite int_small in Hcount by lia.
        rewrite Hcount by (assumption || lia). rewrite len_app.
        change (len [idt]) with 1. lia.
    + injection Hrun as <-. simpl. split; [exact Hcalls |].
      split; [lia | reflexivity].
Qed.

(** X19.  [random.Connect] never passes the node's own ID to
    [node.Connect], whatever the random draws and however the call
    ends, and only connects to identities of the list; when it returns
    nil it has made exactly [max] connections (none for a negative
    [max]). *)
Theorem random_Connect_never_self (node : P2PNode) (ids : list P2PIdentity)
    (max : Z) (draws : list Z) (r : connectRun) :
  random_Connect node ids max draws = Some r ->
  Forall (fun i => identity_ID i <> handelID node /\ In i ids) (snd (fst r)) /\
  (max <= maxInt -> snd r = Returned None -> len (snd (fst r)) = Z.max 0 max).
Proof.
  unfold random_Connect. cbv zeta. intros Hrun.
  apply random_loop_calls in Hrun as (Hall & Hcount & Hnone); [| constructor].
  split; [exact Hall |]. intros Hm Hend.
  destruct (Z.le_gt_cases 0 max) as [Hpos | Hneg].
  - rewrite Hcount by (assumption || lia). change (len []) with 0. lia.
  - rewrite Hnone by lia. change (len []) with 0. lia.
Qed.

Lemma random_loop_all_own (ids : list P2PIdentity) (own max : Z) (draws : list Z) :
  0 < len ids ->
  Forall (fun i => identity_ID i = own) ids ->
  Forall (fun d => 0 <= d < len ids) draws ->
  forall (chosen : Z) (node : P2PNode) (calls : list P2PIdentity),
    minInt < chosen < max -> max <= maxInt ->
    random_loop ids own (len ids) max draws chosen node calls = None.
Proof.
  intros Hn Hown Hdraws. induction Hdraws as [| d rest Hd _ IH];
    intros chosen node calls Hc Hm; cbn [random_loop];
    (destruct (Z.ltb_spec chosen max); [| lia]);
    (destruct (Z.leb_spec (len ids) 0); [lia |]); [reflexivity |].
  destruct (index_in_range ids d Hd) as [idt Hidt]. rewrite Hidt.
  assert (Hin : idt ∈ ids).
  { unfold index in Hidt. destruct (d <? 0); [discriminate |].
    eapply list_elem_of_lookup_2. exact Hidt. }
  rewrite Forall_forall in Hown. rewrite (Hown idt Hin), Z.eqb_refl.
  pose proof minInt_neg. rewrite (int_small (chosen - 1)) by lia.
  replace (chosen - 1 + 1) with chosen by lia.
  rewrite (int_small chosen) by lia. apply IH; assumption.
Qed.

(** X20.  [random.Connect] does not return when every identity of the
    list carries the node's own ID (a list with only the node itself,
    say) and [max] is positive: each draw is thrown away and the count
    taken back, so any finite number of draws is used up without the
    loop ending. *)
Theorem random_Connect_spins_on_own_only (node : P2PNode) (ids : list P2PIdentity)
    (max : Z) (draws : list Z) :
  0 < len ids -> 0 < max <= maxInt ->
  Forall (fun i => identity_ID i = handelID node) ids ->
  Forall (fun d => 0 <= d < len ids) draws ->
  random_Connect node ids max draws = None.
Proof.
  intros Hn Hmax Hown Hdraws. unfold random_Connect. cbv zeta.
  pose proof minInt_neg.
  apply random_loop_all_own; try assumption; lia.
Qed.

End ConnectorProperties.

Section ConnectorErrors.
Context `{Overlay}.

Lemma neighbor_loop_error (ids : list P2PIdentity) (nodeID n : Z) (k : nat) :
  forall (baseID : Z) (firstLoop : bool) (node node' : P2PNode)
         (calls calls' : list P2PIdentity) (e : error),
    neighbor_loop ids nodeID n k baseID firstLoop node calls =
      (node', calls', Returned (Some e)) ->
    exists pre idt,
      calls' = calls ++ pre ++ [idt] /\ In idt ids /\
      node_Connect (fold_left (fun nd i => fst (node_Connect nd i)) pre node) idt =
        (node', Some e).
Proof.
  induction k as [| k IH]; intros baseID firstLoop node node' calls calls' e Hrun.
  - discriminate.
  - cbn [neighbor_loop] in Hrun.
    destruct ((baseID =? n) && firstLoop); [discriminate |].
    destruct (if baseID =? n then (0, true) else (baseID, firstLoop))
      as [baseID1 firstLoop1].
    destruct (baseID1 =? nodeID).
    + apply IH in Hrun as (pre & idt & Hc & Hin & Hnc).
      exists pre, idt. repeat split; assumption.
    + destruct (index ids baseID1) as [idt |] eqn:Hidx; [| discriminate].
      assert (Hin : In idt ids).
      { unfold index in Hidx. destruct (baseID1 <? 0); [discriminate |].
        apply list_elem_of_In. eapply list_elem_of_lookup_2. exact Hidx. }
      destruct (node_Connect node idt) as [node1 [e1 |]] eqn:Hnc.
      * injection Hrun as <- <- <-. exists [], idt.
        repeat split; assumption.
      * apply IH in Hrun as (pre & idt' & Hc & Hin' & Hnc').
        exists (idt :: pre), idt'. rewrite Hc, <- app_assoc. simpl.
        rewrite Hnc. repeat split; assumption.
Qed.

(** X21.  When [neighbor.Connect] returns an error, it is the error
    [node.Connect] gave for the last identity it tried, an identity of
    the list, on the node as the connections before it left it; the
    loop stops there and tries no further identity. *)
Theorem neighbor_Connect_stops_at_first_error (node : P2PNode)
    (ids : list P2PIdentity) (max : Z) (node' : P2PNode)
    (calls : list P2PIdentity) (e : error) :
  neighbor_Connect node ids max = (node', calls, Returned (Some e)) ->
  exists pre idt,
    calls = pre ++ [idt] /\ In idt ids /\
    node_Connect (fold_left (fun nd i => fst (node_Connect nd i)) pre node) idt =
      (node', Some e).
Proof.
  unfold neighbor_Connect. cbv zeta. intros Hrun.
  apply neighbor_loop_error in Hrun as (pre & idt & Hc & Hin & Hnc).
  exists pre, idt. repeat split; assumption.
Qed.

End ConnectorErrors.

(** ** The further properties at concrete inputs *)

Ltac cursor_ok_by_evaluation :=
  unfold cursor_ok, len, maxInt; cbn;
  split; [lia | first [ left; lia | right; split; reflexivity ]].

Lemma createLevels_shape_witness :
  0 <= log2 4 <= maxInt /\
  exists lvls,
    createLevels 4 Demo.pick4 = Ok lvls /\ len lvls = log2 4 /\
    index lvls 1 = Some (Demo.level_of 2 [2; 3]).
Proof.
  assert (Hl : 0 <= log2 4 <= maxInt) by (vm_compute; split; intros; discriminate).
  split; [exact Hl |].
  destruct (proj2 (@createLevels_shape Demo.collaborators 4 Demo.pick4) Hl)
    as (lvls & Hrun & Hlen & Hidx).
  exists lvls. split; [exact Hrun |]. split; [exact Hlen |].
  rewrite (Hidx 1) by (vm_compute; split; [intros; discriminate | reflexivity]).
  reflexivity.
Defined.

Lemma Level_methods_keep_witness :
  let l := Demo.level_of 2 [2; 3; 4] in
  let cs := [CallPickNextAt 2; CallUpdateBestSig (Some (Demo.ms_of [true]));
             CallPickNextAt 5] in
  exists l',
    level_run l cs = Ok l' /\
    nodes l' = nodes l /\ completed l' = completed l /\
    currentBestSize l <= currentBestSize l'.
Proof.
  intros l cs.
  destruct (level_run l cs) as [l' | p] eqn:Hrun; [| vm_compute in Hrun; discriminate].
  exists l'. split; [reflexivity |].
  destruct (Level_methods_keep l cs l' Hrun) as (_ & Hn & _ & Hc & Hb & _).
  repeat split; assumption.
Defined.

Lemma PickNextAt_full_round_witness :
  let l := {| id := 2; nodes := [2; 3; 4]; started := true; completed := false;
              finished := false; pos := 1; sent := 0; currentBestSize := 0 |} in
  cursor_ok l /\ nodes l <> [] /\ len (nodes l) <= 5 /\
  exists l', PickNextAt l 5 = Ok (l', ([3; 4; 2], true)) /\ pos l' = 1.
Proof.
  intros l.
  assert (Hc : cursor_ok l) by cursor_ok_by_evaluation.
  assert (Hne : nodes l <> []) by discriminate.
  assert (Hcount : len (nodes l) <= 5) by by_evaluation.
  split; [exact Hc |]. split; [exact Hne |]. split; [exact Hcount |].
  destruct (PickNextAt_full_round l 5 Hc Hne Hcount) as (l' & Hrun & Hpos & _).
  exists l'. split; [exact Hrun | exact Hpos].
Defined.

Lemma PickNextAt_fails_only_on_negative_count_witness :
  let l := Demo.level_of 2 [2; 3] in
  cursor_ok l /\
  PickNextAt l (-1) = Panic RuntimeMakeSliceLen /\
  exists l' res, PickNextAt l 1 = Ok (l', (res, true)) /\ len res = 1.
Proof.
  intros l.
  assert (Hc : cursor_ok l) by cursor_ok_by_evaluation.
  split; [exact Hc |].
  destruct (PickNextAt_fails_only_on_negative_count l (-1) Hc) as [Hneg _].
  destruct (PickNextAt_fails_only_on_negative_count l 1 Hc) as [_ Hok].
  split; [apply Hneg; lia |].
  destruct Hok as (l' & res & Hrun & Hlen & _); [lia |].
  exists l', res. split; [exact Hrun | exact Hlen].
Defined.

Lemma finished_after_one_pick_per_node_witness :
  let l := Demo.level_of 2 [2; 3] in
  Level_inv l /\ 0 < len (nodes l) /\ sent l = 0 /\ finished l = false /\
  Z.of_nat 2 <= maxInt /\
  exists lk peers,
    pick_ones l 2 = Ok (lk, peers) /\ sent lk = Z.of_nat 2 /\
    (finished lk = true <-> len (nodes l) <= Z.of_nat 2).
Proof.
  intros l.
  assert (Hinv : Level_inv l) by Level_inv_by_evaluation.
  assert (Hne : 0 < len (nodes l)) by by_evaluation.
  assert (Hk : Z.of_nat 2 <= maxInt) by by_evaluation.
  split; [exact Hinv |]. split; [exact Hne |]. split; [reflexivity |].
  split; [reflexivity |]. split; [exact Hk |].
  exact (finished_after_one_pick_per_node l 2 Hinv Hne eq_refl eq_refl Hk).
Defined.

Lemma updateBestSig_completes_once_witness :
  let l := Demo.level_of 1 [1] in
  let m := Demo.ms_of [true] in
  exists l1 l2,
    updateBestSig l (Some m) = Ok (l1, true) /\
    level_run l1 [CallPickNextAt 1] = Ok l2 /\
    updateBestSig l2 (Some m) = Ok (l2, false).
Proof.
  intros l m.
  destruct (updateBestSig l (Some m)) as [[l1 r] | p] eqn:Hfirst;
    [| vm_compute in Hfirst; discriminate].
  assert (Hr : r = true) by (vm_compute in Hfirst; congruence). subst r.
  destruct (level_run l1 [CallPickNextAt 1]) as [l2 | p] eqn:Hrun.
  2:{ vm_compute in Hfirst. injection Hfirst as <-. vm_compute in Hrun. discriminate. }
  destruct (updateBestSig l2 (Some m)) as [[l3 r] | p] eqn:Hagain.
  2:{ vm_compute in Hfirst. injection Hfirst as <-. vm_compute in Hrun.
      injection Hrun as <-. vm_compute in Hagain. discriminate. }
  destruct (updateBestSig_completes_once l m l1 Hfirst [CallPickNextAt 1] l2 Hrun
              (Some m) l3 r Hagain) as [-> ->].
  exists l1, l2. repeat split; first [reflexivity | assumption].
Defined.

Lemma sendUpdate_dispatches_witness :
  let m := Demo.ms_of [true] in
  let h := Demo.handel_of [Demo.level_of 1 [1]; Demo.level_of 2 [2; 3]]
             (Demo.store_all m) in
  let l := Demo.level_of 2 [2; 3] in
  active l /\ cursor_ok l /\ 0 <= 1 /\
  Combined (store h) (byte (byte (id l) - 1)) = Some m /\
  exists newNodes h',
    sendUpdate h l 1 = Ok h' /\ len newNodes = 1 /\
    sends h' = sends h ++ [(newNodes, update_packet h l m)].
Proof.
  intros m h l.
  assert (Hact : active l) by (split; reflexivity).
  assert (Hc : cursor_ok l) by cursor_ok_by_evaluation.
  assert (Hcount : 0 <= 1) by lia.
  assert (Hsp : Combined (store h) (byte (byte (id l) - 1)) = Some m) by reflexivity.
  split; [exact Hact |]. split; [exact Hc |]. split; [exact Hcount |].
  split; [exact Hsp |].
  destruct (sendUpdate_dispatches h l 1 m Hact Hc Hcount Hsp)
    as (newNodes & h' & Hrun & _ & Hlen & _ & Hsent & _).
  exists newNodes, h'. split; [exact Hrun |]. split; [exact Hlen |].
  apply Hsent. reflexivity.
Defined.

Lemma ticks_repeat_first_candidates_witness :
  let m := Demo.ms_of [true] in
  let h := Demo.handel_of [Demo.level_of 1 [1]; Demo.level_of 2 [2; 3]]
             (Demo.store_all m) in
  exists h',
    run h (replicate 2 EvTick) = Ok h' /\
    map fst (sends h') = [[1]; [2]; [1]; [2]].
Proof.
  intros m h.
  assert (Hall : forall l, In l (levels h) ->
            active l /\ pos l = 0 /\
            Combined (store h) (byte (byte (id l) - 1)) = Some ((fun _ => m) l) /\
            snd (MarshalBinary ((fun _ => m) l)) = None).
  { intros l [<- | [<- | []]]; repeat split; reflexivity. }
  destruct (ticks_repeat_first_candidates h (fun _ => m) 2 Hall) as (h' & Hrun & Hs).
  exists h'. split; [exact Hrun |]. rewrite Hs. reflexivity.
Defined.

Lemma NewPacket_queues_exactly_the_accepted_witness :
  let h := Demo.handel4 in
  let p := {| Origin := 1; PacketLevel := 2; MultiSig := [Byte.x01; Byte.x00] |} in
  done h = false /\
  exists h',
    NewPacket h p = Ok h' /\
    incoming h' =
      [{| origin := 1; level := 2; ms := Some (Demo.ms_of [true; false]) |}].
Proof.
  intros h p.
  assert (Hdone : done h = false) by reflexivity.
  split; [exact Hdone |].
  destruct (NewPacket_queues_exactly_the_accepted h p Hdone)
    as (h' & Hrun & _ & _ & _ & _ & _ & _ & _ & Hq & _).
  exists h'. split; [exact Hrun |]. rewrite Hq; [reflexivity |].
  vm_compute. repeat split; intros; discriminate.
Defined.

Lemma checkCompletedLevel_advances_only_on_full_level_witness :
  let m := Demo.ms_of [true] in
  let h := Demo.handel_of [Demo.level_of 1 [1]; Demo.level_of 2 [2; 3]]
             (Demo.store_all m) in
  exists h1 h2,
    run h [EvStart] = Ok h1 /\ checkCompletedLevel h1 Demo.pair1 = Ok h2 /\
    currLevel h1 = 1 /\ currLevel h2 = 2 /\
    (currLevel h2 = currLevel h1 \/
     (level Demo.pair1 = currLevel h1 /\ currLevel h1 < len (levels h1) /\
      currLevel h2 = byte (currLevel h1 + 1) /\
      exists lvl b,
        index (levels h1) (byte (level Demo.pair1 - 1)) = Some lvl /\
        Best (store h1) (level Demo.pair1) = (Some b, true) /\
        Cardinality b = len (nodes lvl))).
Proof.
  intros m h.
  destruct (run h [EvStart]) as [h1 | p] eqn:Hstart;
    [| vm_compute in Hstart; discriminate].
  destruct (checkCompletedLevel h1 Demo.pair1) as [h2 | p] eqn:Hccl.
  2:{ vm_compute in Hstart. injection Hstart as <-. vm_compute in Hccl. discriminate. }
  exists h1, h2. split; [first [reflexivity | assumption] |].
  split; [first [reflexivity | assumption] |].
  pose proof (checkCompletedLevel_advances_only_on_full_level h1 Demo.pair1 h2 Hccl)
    as Hadv.
  split; [vm_compute in Hstart; injection Hstart as <-; reflexivity |].
  split; [| exact Hadv].
  vm_compute in Hstart. injection Hstart as <-. vm_compute in Hccl.
  injection Hccl as <-. reflexivity.
Defined.

Lemma checkCompletedLevel_ignores_partial_level_witness :
  let m := Demo.ms_of [true] in
  let h := Demo.handel_of [Demo.level_of 1 [1]; Demo.level_of 2 [2; 3]]
             (Demo.store_all m) in
  let s := {| origin := 2; level := 2; ms := Some m |} in
  index (levels h) (byte (level s - 1)) = Some (Demo.level_of 2 [2; 3]) /\
  Best (store h) (level s) = (Some m, true) /\
  Cardinality m < len (nodes (Demo.level_of 2 [2; 3])) /\
  checkCompletedLevel h s = Ok h.
Proof.
  intros m h s.
  assert (Hidx : index (levels h) (byte (level s - 1)) =
                 Some (Demo.level_of 2 [2; 3])) by reflexivity.
  assert (Hbest : Best (store h) (level s) = (Some m, true)) by reflexivity.
  assert (Hpart : Cardinality m < len (nodes (Demo.level_of 2 [2; 3])))
    by by_evaluation.
  split; [exact Hidx |]. split; [exact Hbest |]. split; [exact Hpart |].
  exact (checkCompletedLevel_ignores_partial_level h s _ m Hidx Hbest Hpart).
Defined.

Lemma checkCompletedLevel_panics_witness :
  let h := Demo.handel4 in
  let s0 := {| origin := 0; level := 0; ms := Some (Demo.ms_of [true]) |} in
  len (levels h) <= 255 /\ 0 <= level s0 < 256 /\
  checkCompletedLevel h s0 = Panic RuntimeIndexOutOfRange /\
  checkCompletedLevel h Demo.pair1 = Panic PanicStoreWrong.
Proof.
  intros h s0.
  assert (Hlen : len (levels h) <= 255) by by_evaluation.
  assert (Hb0 : 0 <= level s0 < 256) by (vm_compute; split; [intros |]; congruence).
  assert (Hb1 : 0 <= level Demo.pair1 < 256)
    by (vm_compute; split; [intros |]; congruence).
  split; [exact Hlen |]. split; [exact Hb0 |].
  split; [apply (proj1 (checkCompletedLevel_panics h s0 Hlen Hb0)); left; reflexivity |].
  apply (proj1 (proj2 (checkCompletedLevel_panics h Demo.pair1 Hlen Hb1)
                  (Demo.level_of 1 [1]) eq_refl eq_refl)).
  reflexivity.
Defined.

Lemma currLevel_climbs_to_last_level_witness :
  let m := Demo.ms_of [true] in
  let h := Demo.handel_of [Demo.level_of 1 [1]; Demo.level_of 2 [2; 3]]
             (Demo.store_all m) in
  let es := [EvStart; EvTick; EvVerified Demo.pair1 (Demo.store_all m); EvStart] in
  len (levels h) <= 255 /\ 0 <= currLevel h <= len (levels h) /\
  exists h',
    run h es = Ok h' /\ currLevel h' = 2 /\
    currLevel h <= currLevel h' <= len (levels h).
Proof.
  intros m h es.
  assert (Hlen : len (levels h) <= 255) by by_evaluation.
  assert (Hcur : 0 <= currLevel h <= len (levels h))
    by (vm_compute; split; intros; discriminate).
  split; [exact Hlen |]. split; [exact Hcur |].
  destruct (run h es) as [h' | p] eqn:Hrun; [| vm_compute in Hrun; discriminate].
  exists h'. split; [reflexivity |].
  split; [vm_compute in Hrun; injection Hrun as <-; reflexivity |].
  exact (currLevel_climbs_to_last_level h es h' Hlen Hcur Hrun).
Defined.

Lemma best_is_last_output_witness :
  let h := Demo.handel4 in
  let m2 := Demo.ms_of [true; true; false; false] in
  let m3 := Demo.ms_of [true; true; true; false] in
  let es := [EvVerified Demo.pair1 (Demo.store_of (Demo.ms_of [true]) m2);
             EvVerified Demo.pair1 (Demo.store_of (Demo.ms_of [true]) m3);
             EvStop] in
  exists h',
    run h es = Ok h' /\ out h' = [m2; m3] /\ best h' = last (out h').
Proof.
  intros h m2 m3 es.
  destruct (run h es) as [h' | p] eqn:Hrun; [| vm_compute in Hrun; discriminate].
  exists h'. split; [reflexivity |].
  split; [vm_compute in Hrun; injection Hrun as <-; reflexivity |].
  exact (proj2 (best_is_last_output h es h' Hrun) eq_refl eq_refl).
Defined.

Lemma checkFinalSignature_replay_is_silent_witness :
  let m2 := Demo.ms_of [true; true; false; false] in
  let h := Demo.handel_of [Demo.level_of 1 [1]; Demo.level_of 2 [2; 3]]
             (Demo.store_of (Demo.ms_of [true]) m2) in
  exists h1,
    checkFinalSignature h Demo.pair1 = Ok h1 /\ out h1 = [m2] /\
    checkFinalSignature h1 Demo.pair1 = Ok h1.
Proof.
  intros m2 h.
  destruct (checkFinalSignature h Demo.pair1) as [h1 | p] eqn:Hrun;
    [| vm_compute in Hrun; discriminate].
  exists h1. split; [reflexivity |].
  split; [vm_compute in Hrun; injection Hrun as <-; reflexivity |].
  exact (checkFinalSignature_replay_is_silent h Demo.pair1 Demo.pair1 h1 Hrun).
Defined.

Lemma findNextLevel_lowest_non_empty_witness :
  let h := Demo.handel_of [Demo.level_of 1 []; Demo.level_of 2 [2; 3]]
             Demo.store_nil in
  0 <= 0 < len (levels h) /\ len (levels h) < maxInt /\
  0 < 2 <= len (levels h) /\
  index (levels h) (2 - 1) = Some (Demo.level_of 2 [2; 3]) /\
  findNextLevel h 0 = Ok (2, None).
Proof.
  intros h.
  assert (Hlvl : 0 <= 0 < len (levels h)) by (vm_compute; split; [intros; discriminate | reflexivity]).
  assert (Hlen : len (levels h) < maxInt) by by_evaluation.
  assert (Hl' : 0 < 2 <= len (levels h)) by (vm_compute; split; [reflexivity | intros; discriminate]).
  assert (Hempty : forall i lv, 0 <= i < 2 - 1 ->
            index (levels h) i = Some lv -> nodes lv = []).
  { intros i lv Hi. assert (i = 0) as -> by lia. intros [= <-]. reflexivity. }
  assert (Hfound : index (levels h) (2 - 1) = Some (Demo.level_of 2 [2; 3]))
    by reflexivity.
  assert (Hne : nodes (Demo.level_of 2 [2; 3]) <> []) by discriminate.
  split; [exact Hlvl |]. split; [exact Hlen |]. split; [exact Hl' |].
  split; [exact Hfound |].
  exact (findNextLevel_lowest_non_empty h 0 2 _ Hlvl Hlen Hl' Hempty Hfound Hne).
Defined.

Lemma sendBestUpTo_dispatches_witness :
  let m := Demo.ms_of [true] in
  let h := Demo.handel_of [Demo.level_of 1 []; Demo.level_of 2 [2; 3]]
             (Demo.store_all m) in
  exists newNodes h',
    sendBestUpTo h 0 = Ok h' /\
    sends h' = [(newNodes, {| Origin := 0; PacketLevel := 2;
                              MultiSig := [Byte.x01] |})] /\
    len newNodes = 2.
Proof.
  intros m h.
  assert (Hlvl : 0 <= 0 < len (levels h)) by (vm_compute; split; [intros; discriminate | reflexivity]).
  assert (Hlen : len (levels h) < maxInt) by by_evaluation.
  assert (Hl' : 0 < 2 <= len (levels h)) by (vm_compute; split; [reflexivity | intros; discriminate]).
  assert (Hempty : forall i lv, 0 <= i < 2 - 1 ->
            index (levels h) i = Some lv -> nodes lv = []).
  { intros i lv Hi. assert (i = 0) as -> by lia. intros [= <-]. reflexivity. }
  assert (Hfound : index (levels h) (2 - 1) = Some (Demo.level_of 2 [2; 3]))
    by reflexivity.
  assert (Hne : nodes (Demo.level_of 2 [2; 3]) <> []) by discriminate.
  assert (Hact : active (Demo.level_of 2 [2; 3])) by (split; reflexivity).
  assert (Hc : cursor_ok (Demo.level_of 2 [2; 3])) by cursor_ok_by_evaluation.
  assert (Hcc : 0 <= CandidateCount h) by (vm_compute; intros; discriminate).
  destruct (sendBestUpTo_dispatches h 0 2 (Demo.level_of 2 [2; 3]) m
              Hlvl Hlen Hl' Hempty Hfound Hne eq_refl Hact Hc Hcc eq_refl eq_refl)
    as (newNodes & h' & Hrun & Hs & Hn & _).
  exists newNodes, h'. split; [exact Hrun |]. split; [exact Hs | exact Hn].
Defined.

Lemma neighbor_Connect_next_in_ring_witness :
  let node : P2PNode := (1, []) in
  let ids : list P2PIdentity := [0; 1; 2; 3] in
  0 <= handelID node < len ids /\ len ids <= maxInt /\ 0 <= 3 <= len ids /\
  neighbor_Connect node ids 3 = ((1, [2; 3]), [2; 3], Returned None) /\
  exists calls,
    snd (fst (neighbor_Connect node ids 3)) = calls /\
    len calls = Z.max 0 (3 - 1).
Proof.
  intros node ids.
  assert (Hid : 0 <= handelID node < len ids)
    by (vm_compute; split; [intros; discriminate | reflexivity]).
  assert (Hlen : len ids <= maxInt) by by_evaluation.
  assert (Hmax : 0 <= 3 <= len ids) by (vm_compute; split; intros; discriminate).
  assert (Hsucc : forall nd i, snd (node_Connect nd i) = None) by reflexivity.
  split; [exact Hid |]. split; [exact Hlen |]. split; [exact Hmax |].
  split; [reflexivity |].
  destruct (neighbor_Connect_next_in_ring node ids 3 Hid Hlen Hmax Hsucc)
    as (calls & Hrun & Hn & _).
  exists calls. rewrite Hrun. split; [reflexivity | exact Hn].
Defined.

Lemma random_Connect_never_self_witness :
  let node : P2PNode := (1, []) in
  let ids : list P2PIdentity := [0; 1; 2; 3] in
  exists r,
    random_Connect node ids 2 [1; 3; 1; 0] = Some r /\
    snd (fst r) = [3; 0] /\
    Forall (fun i => identity_ID i <> handelID node /\ In i ids) (snd (fst r)).
Proof.
  intros node ids.
  destruct (random_Connect node ids 2 [1; 3; 1; 0]) as [r |] eqn:Hrun;
    [| vm_compute in Hrun; discriminate].
  exists r. split; [reflexivity |].
  split; [vm_compute in Hrun; injection Hrun as <-; reflexivity |].
  exact (proj1 (random_Connect_never_self node ids 2 [1; 3; 1; 0] r Hrun)).
Defined.

Lemma random_Connect_spins_on_own_only_witness :
  let node : P2PNode := (1, []) in
  let ids : list P2PIdentity := [1] in
  0 < len ids /\ 0 < 1 <= maxInt /\
  random_Connect node ids 1 [0; 0; 0] = None.
Proof.
  intros node ids.
  assert (Hn : 0 < len ids) by by_evaluation.
  assert (Hmax : 0 < 1 <= maxInt) by (vm_compute; split; [reflexivity | intros; discriminate]).
  assert (Hown : Forall (fun i => identity_ID i = handelID node) ids)
    by (constructor; [reflexivity | constructor]).
  assert (Hdraws : Forall (fun d => 0 <= d < len ids) [0; 0; 0]).
  { repeat constructor; vm_compute; intros; discriminate. }
  split; [exact Hn |]. split; [exact Hmax |].
  exact (random_Connect_spins_on_own_only node ids 1 [0; 0; 0] Hn Hmax Hown Hdraws).
Defined.

Lemma neighbor_Connect_stops_at_first_error_witness :
  let node : @P2PNode DemoOverlay.flaky := (1, []) in
  let ids : list (@P2PIdentity DemoOverlay.flaky) := [0; 1; 2; 100; 4] in
  @neighbor_Connect DemoOverlay.flaky node ids 5 =
    ((1, [2]), [2; 100], Returned (Some ErrExternal)) /\
  exists pre idt,
    [2; 100] = pre ++ [idt] /\ In idt ids /\
    @node_Connect DemoOverlay.flaky
      (fold_left (fun nd i => fst (@node_Connect DemoOverlay.flaky nd i)) pre node)
      idt = ((1, [2]), Some ErrExternal).
Proof.
  intros node ids.
  assert (Hrun : @neighbor_Connect DemoOverlay.flaky node ids 5 =
                 ((1, [2]), [2; 100], Returned (Some ErrExternal))) by reflexivity.
  split; [exact Hrun |].
  exact (@neighbor_Connect_stops_at_first_error DemoOverlay.flaky node ids 5
           (1, [2]) [2; 100] ErrExternal Hrun).
Defined.

(** ** What the loops never do *)

Section NeverDone.
Context `{Overlay}.

Lemma neighbor_loop_in_range (ids : list P2PIdentity) (nodeID : Z) (k : nat) :
  0 <= nodeID < len ids -> len ids < maxInt ->
  forall (baseID : Z) (firstLoop : bool) (node : P2PNode)
         (calls : list P2PIdentity),
    0 <= baseID <= len ids ->
    snd (neighbor_loop ids nodeID (len ids) k baseID firstLoop node calls)
      <> PanicIndex.
Proof.
  intros Hid Hlen. pose proof minInt_neg as Hmin.
  induction k as [| k IH]; intros baseID firstLoop node calls Hb.
  - discriminate.
  - cbn [neighbor_loop].
    destruct ((baseID =? len ids) && firstLoop); [discriminate |].
    destruct (Z.eqb_spec baseID (len ids)) as [Heq | Hne]; cbv beta iota zeta.
    + destruct (0 =? nodeID).
      * apply IH. change (int (0 + 1)) with 1. lia.
      * destruct (index_in_range ids 0) as [idt Hidt]; [lia |].
        rewrite Hidt.
        destruct (node_Connect node idt) as [node' [e |]]; [discriminate |].
        apply IH. change (int (0 + 1)) with 1. lia.
    + destruct (baseID =? nodeID).
      * apply IH. rewrite int_small by lia. lia.
      * destruct (index_in_range ids baseID) as [idt Hidt]; [lia |].
        rewrite Hidt.
        destruct (node_Connect node idt) as [node' [e |]]; [discriminate |].
        apply IH. rewrite int_small by lia. lia.
Qed.

Lemma neighbor_loop_no_Intn (ids : list P2PIdentity) (nodeID n : Z) (k : nat) :
  forall (baseID : Z) (firstLoop : bool) (node : P2PNode)
         (calls : list P2PIdentity),
    snd (neighbor_loop ids nodeID n k baseID firstLoop node calls) <> PanicIntn.
Proof.
  induction k as [| k IH]; intros baseID firstLoop node calls.
  - discriminate.
  - cbn [neighbor_loop].
    destruct ((baseID =? n) && firstLoop); [discriminate |].
    destruct (if baseID =? n then (0, true) else (baseID, firstLoop))
      as [baseID1 firstLoop1].
    destruct (baseID1 =? nodeID); [apply IH |].
    destruct (index ids baseID1) as [idt |]; [| discriminate].
    destruct (node_Connect node idt) as [node' [e |]]; [discriminate | apply IH].
Qed.

(** X22.  [neighbor.Connect] for a node whose ID is an index of the
    list never reads outside the list, for any [max] and whatever
    [node.Connect] does: it returns nil, returns an error of
    [node.Connect], or panics with its own "looping" message. *)
Theorem neighbor_Connect_stays_in_list (node : P2PNode) (ids : list P2PIdentity)
    (max : Z) :
  0 <= handelID node < len ids -> len ids < maxInt ->
  snd (neighbor_Connect node ids max) <> PanicIndex /\
  snd (neighbor_Connect node ids max) <> PanicIntn.
Proof.
  intros Hid Hlen. unfold neighbor_Connect. cbv zeta. split.
  - apply neighbor_loop_in_range; [exact Hid | exact Hlen | lia].
  - apply neighbor_loop_no_Intn.
Qed.

End NeverDone.

Section LateLevels.
Context `{Collaborators}.

(** X23.  The push of a newly full level to a higher one is guarded by
    [lvl.id < len(levels) - 1]: a verified pair that fills a level
    other than the current one, when that level's id is [len(levels) - 1]
    or more, leaves the aggregator exactly as it was; nothing is sent
    to the level above. *)
Theorem checkCompletedLevel_no_push_from_last_two (h : Handel) (s : sigPair)
    (lvl : Level) (h' : Handel) :
  index (levels h) (byte (level s - 1)) = Some lvl ->
  level s <> currLevel h ->
  len (levels h) <= maxInt -> len (levels h) - 1 <= id lvl ->
  checkCompletedLevel h s = Ok h' -> h' = h.
Proof.
  intros Hidx Hcur Hlen Hid. unfold checkCompletedLevel. rewrite Hidx.
  destruct (completed lvl); [intros [= <-]; reflexivity |].
  destruct (Best (store h) (level s)) as [m ok].
  destruct (negb ok); [discriminate |].
  intros Hrun. apply bind_Ok_inv in Hrun as ([lvl' r] & Hupd & Hrest).
  destruct (negb r); [injection Hrest as <-; reflexivity |].
  destruct (Z.eqb_spec (level s) (currLevel h)); [contradiction |].
  assert (Hid' : id lvl' = id lvl).
  { unfold updateBestSig in Hupd. destruct m as [m |]; [| discriminate].
    destruct (Cardinality m >? len (nodes lvl)); [discriminate |].
    destruct (currentBestSize lvl >=? Cardinality m);
      injection Hupd as <- _; reflexivity. }
  pose proof minInt_neg. pose proof (len_nonneg (levels h)).
  rewrite int_small, Hid' in Hrest by lia.
  destruct (Z.ltb_spec (id lvl) (len (levels h) - 1)); [lia |].
  injection Hrest as <-. reflexivity.
Qed.

End LateLevels.

Lemma neighbor_Connect_stays_in_list_witness :
  let node : P2PNode := (1, []) in
  let ids : list P2PIdentity := [0; 1; 2; 3] in
  0 <= handelID node < len ids /\ len ids < maxInt /\
  neighbor_Connect node ids 9 = ((1, [2; 3; 0; 2; 3]), [2; 3; 0; 2; 3], PanicLooping) /\
  snd (neighbor_Connect node ids 9) <> PanicIndex.
Proof.
  intros node ids.
  assert (Hid : 0 <= handelID node < len ids)
    by (vm_compute; split; [intros; discriminate | reflexivity]).
  assert (Hlen : len ids < maxInt) by by_evaluation.
  split; [exact Hid |]. split; [exact Hlen |]. split; [reflexivity |].
  exact (proj1 (neighbor_Connect_stays_in_list node ids 9 Hid Hlen)).
Defined.

Lemma checkCompletedLevel_no_push_from_last_two_witness :
  let m := Demo.ms_of [true] in
  let h := Demo.handel_of [Demo.level_of 1 [1]; Demo.level_of 2 [2; 3]]
             (Demo.store_all m) in
  index (levels h) (byte (level Demo.pair1 - 1)) = Some (Demo.level_of 1 [1]) /\
  level Demo.pair1 <> currLevel h /\ len (levels h) <= maxInt /\
  len (levels h) - 1 <= id (Demo.level_of 1 [1]) /\
  checkCompletedLevel h Demo.pair1 = Ok h.
Proof.
  intros m h.
  assert (Hidx : index (levels h) (byte (level Demo.pair1 - 1)) =
                 Some (Demo.level_of 1 [1])) by reflexivity.
  assert (Hcur : level Demo.pair1 <> currLevel h) by discriminate.
  assert (Hlen : len (levels h) <= maxInt) by by_evaluation.
  assert (Hid : len (levels h) - 1 <= id (Demo.level_of 1 [1])) by by_evaluation.
  split; [exact Hidx |]. split; [exact Hcur |]. split; [exact Hlen |].
  split; [exact Hid |].
  destruct (checkCompletedLevel h Demo.pair1) as [h' | p] eqn:Hrun;
    [| vm_compute in Hrun; discriminate].
  f_equal.
  exact (checkCompletedLevel_no_push_from_last_two h Demo.pair1 _ h'
           Hidx Hcur Hlen Hid Hrun).
Defined.

(** ** A level without candidates, in the aggregator *)

Section EmptyLevel.
Context `{Collaborators}.


End EmptyLevel.


